(** * jellywal: segment loading and the binary entry framing

    A shallow embedding of [jellywal.go]: configuration defaults, the
    length-prefixed entry decoder, the scan that rebuilds a segment's
    position table, segment file naming, and the directory scan executed when
    a log is opened. *)

From Stdlib Require Import ZArith Lia Bool List.
From Stdlib Require Import Strings.String Strings.Ascii Strings.Byte.
From stdpp Require Import base option list gmap strings sorting.

Open Scope Z_scope.

(** ** Machine integers

    Go's [uint64] and (on the 64-bit targets the package is built for) [int]
    are 64 bits wide. They are carried as [Z] with the wrap-around of each
    arithmetic step and conversion written out. *)

Module GoInt.

Definition MaxUint64 : Z := 2 ^ 64 - 1.
Definition MaxInt : Z := 2 ^ 63 - 1.

(** Reduction into [uint64]. *)
Definition u64 (z : Z) : Z := z mod 2 ^ 64.

(** Reduction into the signed 64-bit [int]. *)
Definition int (z : Z) : Z := (z + 2 ^ 63) mod 2 ^ 64 - 2 ^ 63.

(** [len(s)] of a slice, as an [int]. *)
Definition len {A} (s : list A) : Z := Z.of_nat (length s).

End GoInt.

Import GoInt.

(** ** Errors

    Go errors form a chain through [fmt.Errorf("...: %w", err)];
    [errors.Is] walks that chain. *)

Inductive error : Type :=
| ErrNew (text : string)
| ErrSyntax
| ErrRange
| ErrOS (op : string) (name : string)
| Errorf (msg : string) (wrapped : error).

#[global] Instance error_eq_dec : EqDecision error.
Proof. solve_decision. Defined.

(** Modelled from the spec: the sentinel [ErrCorrupt] is returned by
    [loadNextBinaryEntry] but declared in no source file. The spec calls it
    [CorruptError], the error of a byte stream that cannot be parsed as a
    well-formed sequence of length-prefixed records; it is one fixed error
    value, made once with [errors.New]. *)
Definition ErrCorrupt : error := ErrNew "log corrupt".

(** [errors.Is(e, target)]: [target] is [e] or is reached from [e] by
    unwrapping. *)
Fixpoint errors_Is (e target : error) : bool :=
  bool_decide (e = target) ||
  match e with
  | Errorf _ w => errors_Is w target
  | _ => false
  end.

(** The result of a Go function returning [(T, error)], together with the
    run-time panic of an out-of-range slice or index expression, and the
    answer of a loop whose fuel has run out. *)
Inductive outcome (A : Type) : Type :=
| Ok (a : A)
| Err (e : error)
| Panic
| OutOfFuel.
Arguments Ok {A} a.
Arguments Err {A} e.
Arguments Panic {A}.
Arguments OutOfFuel {A}.

(** ** [encoding/binary.Uvarint]

    The decoder of Go's standard library, on which the entry decoder rests.
    It returns the value and the number of bytes read; the count is [0] when
    the buffer ends inside the integer and negative on a 64-bit overflow. *)

Definition MaxVarintLen64 : Z := 10.

Definition byteZ (b : byte) : Z := Z.of_N (Byte.to_N b).

Fixpoint uvarint_loop (buf : list byte) (i x s : Z) : Z * Z :=
  match buf with
  | [] => (0, 0)
  | b :: rest =>
      if i =? MaxVarintLen64 then (0, - (i + 1))
      else if byteZ b <? 128 then
        if (i =? MaxVarintLen64 - 1) && (1 <? byteZ b) then (0, - (i + 1))
        else (Z.lor x (u64 (Z.shiftl (byteZ b) s)), i + 1)
      else
        uvarint_loop rest (i + 1)
          (Z.lor x (u64 (Z.shiftl (Z.land (byteZ b) 127) s))) (s + 7)
  end.

Definition Uvarint (buf : list byte) : Z * Z := uvarint_loop buf 0 0 0.

(** ** The entry decoder *)

(** [loadNextBinaryEntry]: reads the size of the next entry and returns the
    number of bytes the entry occupies, size prefix included. *)
Definition loadNextBinaryEntry (data : list byte) : outcome Z :=
  let '(size, bytesRead) := Uvarint data in
  if bytesRead <=? 0 then Err ErrCorrupt
  else if u64 (int (len data - bytesRead)) <? size then Err ErrCorrupt
  else Ok (int (bytesRead + int size)).

(** ** Segments and the position table *)

Record bytepos : Type := mkBytepos { start : Z; end_ : Z }.

Record segment : Type := mkSegment {
  path : string;
  index : Z;
  cbuf : list byte;
  cpos : list bytepos
}.

(** The slice expression [data[n:]]; it panics outside [0 <= n <= len]. *)
Definition slice_from (data : list byte) (n : Z) : option (list byte) :=
  if (0 <=? n) && (n <=? len data) then Some (drop (Z.to_nat n) data)
  else None.

(** The loop of [loadSegmentEntries]. Each turn decodes one entry at the
    front of [data], records its range and advances. The recursion is on
    [fuel]. *)
Fixpoint scanEntries (fuel : nat) (data : list byte)
    (entryPositions : list bytepos) (currentPosition : Z)
    : outcome (list bytepos) :=
  match data with
  | [] => Ok entryPositions
  | _ :: _ =>
      match fuel with
      | O => OutOfFuel
      | S fuel' =>
          match loadNextBinaryEntry data with
          | Ok bytesRead =>
              match slice_from data bytesRead with
              | None => Panic
              | Some data' =>
                  scanEntries fuel' data'
                    (entryPositions ++
                       [mkBytepos currentPosition (int (currentPosition + bytesRead))])
                    (int (currentPosition + bytesRead))
              end
          | Err e =>
              Err (Errorf "failed to load binary entry from log segment" e)
          | Panic => Panic
          | OutOfFuel => OutOfFuel
          end
      end
  end.

(** The part of [loadSegmentEntries] that follows the read of the file: the
    scan of the whole buffer from position [0]. One unit of fuel per byte is
    enough, since every decoded entry is at least one byte long. *)
Definition buildCache (data : list byte) : outcome (list bytepos) :=
  scanEntries (length data) data [] 0.

(** ** Configuration *)

Definition DefaultSegmentSize : Z := 20 * 1024 * 1024.
Definition DefaultDirPerms : Z := 488.   (* 0750 *)
Definition DefaultFilePerms : Z := 416.  (* 0640 *)

Record Config : Type := mkConfig {
  Sync : bool;
  SegmentSize : Z;
  DirPerms : Z;
  FilePerms : Z
}.

Definition DefaultConfig : Config :=
  {| Sync := true;
     SegmentSize := DefaultSegmentSize;
     DirPerms := DefaultDirPerms;
     FilePerms := DefaultFilePerms |}.

(** [(c *Config) Validate()]: the three tests, in the order of the source. *)
Definition Validate (c : Config) : Config :=
  let c1 :=
    if SegmentSize c <=? 0
    then {| Sync := Sync c; SegmentSize := DefaultSegmentSize;
            DirPerms := DirPerms c; FilePerms := FilePerms c |}
    else c in
  let c2 :=
    if DirPerms c1 =? 0
    then {| Sync := Sync c1; SegmentSize := SegmentSize c1;
            DirPerms := DefaultDirPerms; FilePerms := FilePerms c1 |}
    else c1 in
  if FilePerms c2 =? 0
  then {| Sync := Sync c2; SegmentSize := SegmentSize c2;
          DirPerms := DirPerms c2; FilePerms := DefaultFilePerms |}
  else c2.

(** ** Decimal text: [fmt.Sprintf("%020d", _)] and [strconv.ParseUint] *)

Definition charZ (c : ascii) : Z := Z.of_N (N_of_ascii c).

(** The character of a decimal digit, [byte('0' + d)]. *)
Definition digitChar (d : Z) : ascii := ascii_of_N (Z.to_N (48 + d)).

(** The digit loop of [fmt]'s integer formatting: the least significant
    digit is produced first and written in front of those already there. *)
Fixpoint fmtDigits (fuel : nat) (u : Z) (buf : list ascii) : list ascii :=
  match fuel with
  | O => buf
  | S fuel' =>
      if u <? 10 then digitChar u :: buf
      else fmtDigits fuel' (u / 10) (digitChar (u - (u / 10) * 10) :: buf)
  end.

(** [fmt.Sprintf("%0<width>d", u)] for an unsigned [u]: the digits, with
    zeros in front while there are fewer than [width] of them. A [uint64]
    has at most twenty digits. *)
Definition sprintf_0d (width : nat) (u : Z) : string :=
  let ds := fmtDigits 20 u [] in
  string_of_list_ascii (replicate (width - length ds) "0"%char ++ ds).

(** [segmentName]. *)
Definition segmentName (index : Z) : string := sprintf_0d 20 index.

(** [lower(c)] of [strconv]: [c | ('x' - 'X')]. *)
Definition lower (c : Z) : Z := Z.lor c 32.

(** The loop of [strconv.ParseUint(s, 10, 64)]. *)
Definition parseCutoff : Z := MaxUint64 / 10 + 1.

Fixpoint parseUintLoop (cs : list ascii) (n : Z) : outcome Z :=
  match cs with
  | [] => Ok n
  | ch :: rest =>
      let c := charZ ch in
      let d :=
        if (48 <=? c) && (c <=? 57) then Some (c - 48)
        else if (97 <=? lower c) && (lower c <=? 122)
             then Some (lower c - 97 + 10)
             else None in
      match d with
      | None => Err ErrSyntax
      | Some d =>
          if 10 <=? d then Err ErrSyntax
          else if parseCutoff <=? n then Err ErrRange
          else
            let n10 := u64 (n * 10) in
            let n1 := u64 (n10 + d) in
            if (n1 <? n10) || (MaxUint64 <? n1) then Err ErrRange
            else parseUintLoop rest n1
      end
  end.

(** [strconv.ParseUint(s, 10, 64)]. *)
Definition ParseUint (s : string) : outcome Z :=
  match s with
  | EmptyString => Err ErrSyntax
  | _ => parseUintLoop (list_ascii_of_string s) 0
  end.

(** ** The file system seen through package [os]

    A file system maps a path to a node. Only what [jellywal.go] asks of it
    is modelled: listing a directory, opening or creating a file, seeking in
    an open file and reading a whole file. Access rights are not checked. *)

Inductive node : Type :=
| Directory
| RegularFile (perm : Z) (content : list byte).

Abbreviation filesystem := (gmap string node).

Record DirEntry : Type := mkDirEntry { Name : string; IsDir : bool }.

(** The flags of [os.OpenFile], with their values on Linux. *)
Definition O_RDONLY : Z := 0.
Definition O_WRONLY : Z := 1.
Definition O_RDWR : Z := 2.
Definition O_CREATE : Z := 64.
Definition O_TRUNC : Z := 512.

Definition hasFlag (flag bit : Z) : bool := negb (Z.land flag bit =? 0).
Definition accessMode (flag : Z) : Z := Z.land flag 3.

(** An open [*os.File]: the path it was opened at, the flags and permission
    bits of the call, and the current offset. *)
Record File : Type := mkFile {
  fname : string;
  fflag : Z;
  fperm : Z;
  foffset : Z
}.

(** [filepath.Join(dir, name)] for a clean directory path other than the
    root and a name without separators. *)
Definition Join (dir name : string) : string := dir +:+ "/" +:+ name.

(** [s] without the prefix [p], when [s] starts with [p]. *)
Fixpoint stripPrefix (p s : string) : option string :=
  match p with
  | EmptyString => Some s
  | String a p' =>
      match s with
      | EmptyString => None
      | String b s' => if Ascii.eqb a b then stripPrefix p' s' else None
      end
  end.

Fixpoint hasSeparator (s : string) : bool :=
  match s with
  | EmptyString => false
  | String c s' => Ascii.eqb c "/"%char || hasSeparator s'
  end.

(** The entry of directory [dir] that a path of the file system stands for,
    if it lies directly in [dir]. *)
Definition entryIn (dir : string) (pn : string * node) : option DirEntry :=
  match stripPrefix (dir +:+ "/") pn.1 with
  | Some name =>
      if hasSeparator name || bool_decide (name = EmptyString) then None
      else Some (mkDirEntry name
                   (match pn.2 with Directory => true | RegularFile _ _ => false end))
  | None => None
  end.

Definition nameLe (a b : DirEntry) : Prop := String.leb (Name a) (Name b) = true.

#[global] Instance nameLe_dec a b : Decision (nameLe a b).
Proof. unfold nameLe. apply _. Defined.

(** [os.ReadDir]: the entries of the directory, sorted by file name. *)
Definition ReadDir (fs : filesystem) (dir : string) : outcome (list DirEntry) :=
  match fs !! dir with
  | Some Directory => Ok (merge_sort nameLe (omap (entryIn dir) (map_to_list fs)))
  | Some (RegularFile _ _) => Err (ErrOS "readdir" dir)
  | None => Err (ErrOS "open" dir)
  end.

(** [os.OpenFile(name, flag, perm)]. A missing file is created under
    [O_CREATE]; an existing regular file is emptied under [O_TRUNC]; a
    directory cannot be opened for writing. *)
Definition OpenFile (fs : filesystem) (name : string) (flag perm : Z)
    : outcome File * filesystem :=
  match fs !! name with
  | None =>
      if hasFlag flag O_CREATE
      then (Ok (mkFile name flag perm 0), <[name := RegularFile perm []]> fs)
      else (Err (ErrOS "open" name), fs)
  | Some Directory =>
      if accessMode flag =? O_RDONLY
      then (Ok (mkFile name flag perm 0), fs)
      else (Err (ErrOS "open" name), fs)
  | Some (RegularFile p content) =>
      if hasFlag flag O_TRUNC && negb (accessMode flag =? O_RDONLY)
      then (Ok (mkFile name flag perm 0), <[name := RegularFile p []]> fs)
      else (Ok (mkFile name flag perm 0), fs)
  end.

(** [(f *File) Seek(offset, whence)]: [whence] is [0] for the start of the
    file, [1] for the current offset and [2] for the end. *)
Definition Seek (fs : filesystem) (f : File) (offset whence : Z)
    : outcome Z * File :=
  match fs !! fname f with
  | Some (RegularFile _ content) =>
      let base :=
        if whence =? 0 then Some 0
        else if whence =? 1 then Some (foffset f)
        else if whence =? 2 then Some (len content)
        else None in
      match base with
      | Some b =>
          if b + offset <? 0 then (Err (ErrOS "seek" (fname f)), f)
          else (Ok (b + offset),
                mkFile (fname f) (fflag f) (fperm f) (b + offset))
      | None => (Err (ErrOS "seek" (fname f)), f)
      end
  | _ => (Err (ErrOS "seek" (fname f)), f)
  end.

(** [os.ReadFile]. *)
Definition ReadFile (fs : filesystem) (name : string) : outcome (list byte) :=
  match fs !! name with
  | Some (RegularFile _ content) => Ok content
  | Some Directory => Err (ErrOS "read" name)
  | None => Err (ErrOS "open" name)
  end.

(** ** The log *)

(** The fields of [Log] that loading reads or writes. The slice of segment
    pointers is the list [segments]: a pointer to a segment is its position
    in the list, and a write through the pointer is an update at that
    position. The lock and the write batch play no part in loading. *)
Record Log : Type := mkLog {
  lpath : string;
  segments : list segment;
  sfile : option File;
  config : Config;
  closed : bool;
  corrupt : bool
}.

Definition setSegments (l : Log) (segs : list segment) : Log :=
  mkLog (lpath l) segs (sfile l) (config l) (closed l) (corrupt l).

Definition setSfile (l : Log) (f : File) : Log :=
  mkLog (lpath l) (segments l) (Some f) (config l) (closed l) (corrupt l).

(** [loadSegmentEntries]: reads the file of the segment at position [i] and
    fills in its buffer and position table. *)
Definition loadSegmentEntries (l : Log) (fs : filesystem) (i : nat)
    : outcome unit * Log :=
  match segments l !! i with
  | None => (Panic, l)
  | Some seg =>
      match ReadFile fs (path seg) with
      | Ok data =>
          match buildCache data with
          | Ok entryPositions =>
              (Ok tt,
               setSegments l
                 (<[i := mkSegment (path seg) (index seg) data entryPositions]>
                    (segments l)))
          | Err e => (Err e, l)
          | Panic => (Panic, l)
          | OutOfFuel => (OutOfFuel, l)
          end
      | Err e => (Err (Errorf "failed to read log segment file" e), l)
      | Panic => (Panic, l)
      | OutOfFuel => (OutOfFuel, l)
      end
  end.

(** [openLastSegment]: opens the file of the segment at position [i] for
    appending and loads its entries. *)
Definition openLastSegment (l : Log) (fs : filesystem) (i : nat)
    : outcome unit * Log * filesystem :=
  match segments l !! i with
  | None => (Panic, l, fs)
  | Some lastSegment =>
      match OpenFile fs (path lastSegment) O_WRONLY (FilePerms (config l)) with
      | (Ok file, fs1) =>
          let l1 := setSfile l file in
          match Seek fs1 file 0 2 with
          | (Ok _, file') =>
              let l2 := setSfile l1 file' in
              match loadSegmentEntries l2 fs1 i with
              | (Ok _, l3) => (Ok tt, l3, fs1)
              | (Err e, l3) =>
                  (Err (Errorf "failed to load last log segment entries" e), l3, fs1)
              | (Panic, l3) => (Panic, l3, fs1)
              | (OutOfFuel, l3) => (OutOfFuel, l3, fs1)
              end
          | (Err e, file') =>
              (Err (Errorf "failed to seek in last log segment file" e),
               setSfile l1 file', fs1)
          | (Panic, _) => (Panic, l1, fs1)
          | (OutOfFuel, _) => (OutOfFuel, l1, fs1)
          end
      | (Err e, fs1) =>
          (Err (Errorf "failed to open last log segment file" e), l, fs1)
      | (Panic, fs1) => (Panic, l, fs1)
      | (OutOfFuel, fs1) => (OutOfFuel, l, fs1)
      end
  end.

(** [createInitialSegment]. *)
Definition createInitialSegment (l : Log) (fs : filesystem)
    : outcome unit * Log * filesystem :=
  let initialSegment := mkSegment (Join (lpath l) (segmentName 1)) 1 [] [] in
  let l1 := setSegments l (segments l ++ [initialSegment]) in
  match OpenFile fs (path initialSegment)
          (Z.lor (Z.lor O_CREATE O_RDWR) O_TRUNC) (FilePerms (config l1)) with
  | (Ok file, fs1) => (Ok tt, setSfile l1 file, fs1)
  | (Err e, fs1) =>
      (Err (Errorf "failed to create initial log segment file" e), l1, fs1)
  | (Panic, fs1) => (Panic, l1, fs1)
  | (OutOfFuel, fs1) => (OutOfFuel, l1, fs1)
  end.

(** The body of the loop of [loadSegments] over the directory listing: the
    segment list after one more entry has been looked at. *)
Definition registerEntry (dir : string) (segs : list segment) (file : DirEntry)
    : list segment :=
  let name := Name file in
  if IsDir file || (Z.of_nat (String.length name) <? 20) then segs
  else
    match ParseUint (substring 0 20 name) with
    | Ok index =>
        if index =? 0 then segs
        else if Z.of_nat (String.length name) =? 20
             then segs ++ [mkSegment (Join dir name) index [] []]
             else segs
    | _ => segs
    end.

(** [loadSegments]: loads the existing segments from the log directory. *)
Definition loadSegments (l : Log) (fs : filesystem)
    : outcome unit * Log * filesystem :=
  match ReadDir fs (lpath l) with
  | Ok files =>
      let l1 := setSegments l (foldl (registerEntry (lpath l)) (segments l) files) in
      if len (segments l1) =? 0 then
        match createInitialSegment l1 fs with
        | (Err e, l2, fs2) =>
            (Err (Errorf "failed to create initial log segment" e), l2, fs2)
        | r => r
        end
      else
        match openLastSegment l1 fs (Z.to_nat (len (segments l1) - 1)) with
        | (Err e, l2, fs2) =>
            (Err (Errorf "failed to open last log segment" e), l2, fs2)
        | r => r
        end
  | Err e => (Err (Errorf "failed to read log directory" e), l, fs)
  | Panic => (Panic, l, fs)
  | OutOfFuel => (OutOfFuel, l, fs)
  end.

(** ** The record format, as the format describes it

    A size prefix is a run of bytes with the top bit set closed by one byte
    without it; the low seven bits of each byte are a base-128 digit, least
    significant first. The prefix is at most [MaxVarintLen64] bytes long and
    its value fits 64 bits. *)

Fixpoint base128 (v : list byte) : Z :=
  match v with
  | [] => 0
  | b :: r => Z.land (byteZ b) 127 + 128 * base128 r
  end.

Definition isVarint (v : list byte) (n : Z) : Prop :=
  exists cs last,
    v = cs ++ [last] /\
    Forall (fun b => 128 <= byteZ b) cs /\
    byteZ last < 128 /\
    len v <= MaxVarintLen64 /\
    n = base128 v /\
    n <= MaxUint64.

(** A buffer made of whole records: none, or a size prefix, as many payload
    bytes as it says, and whole records again. *)
Inductive wellFramed : list byte -> Prop :=
| wellFramed_nil : wellFramed []
| wellFramed_record v n payload rest :
    isVarint v n ->
    len payload = n ->
    wellFramed rest ->
    wellFramed (v ++ payload ++ rest).

(** A position table that cuts [from, to) into consecutive non-empty
    ranges. *)
Fixpoint tiles (ps : list bytepos) (from to : Z) : Prop :=
  match ps with
  | [] => from = to
  | p :: ps' => start p = from /\ start p < end_ p /\ tiles ps' (end_ p) to
  end.

(** The error the scan of a buffer ends with when a record is malformed. *)
Definition scanError : error :=
  Errorf "failed to load binary entry from log segment" ErrCorrupt.

(** ** Segment file names, as the naming scheme describes them *)

Definition isDigit (c : ascii) : bool := (48 <=? charZ c) && (charZ c <=? 57).

(** The number a run of decimal digits denotes, read after the digits
    already worth [n]. *)
Fixpoint valueFrom (n : Z) (cs : list ascii) : Z :=
  match cs with
  | [] => n
  | c :: cs' => valueFrom (n * 10 + (charZ c - 48)) cs'
  end.

Definition decimalValue (s : string) : Z := valueFrom 0 (list_ascii_of_string s).

Definition allDigits (s : string) : bool := forallb isDigit (list_ascii_of_string s).

(** A directory entry with the shape of a segment file: not a directory,
    exactly twenty characters, all of them decimal digits, denoting a
    positive number that fits the 64 bits of an index. *)
Definition isSegmentFile (f : DirEntry) : bool :=
  negb (IsDir f) &&
  (String.length (Name f) =? 20)%nat &&
  allDigits (Name f) &&
  (0 <? decimalValue (Name f)) &&
  (decimalValue (Name f) <=? MaxUint64).

(** The segment registered for such an entry. *)
Definition segmentOf (dir : string) (f : DirEntry) : segment :=
  mkSegment (Join dir (Name f)) (decimalValue (Name f)) [] [].

(** The strict order of directory entries by name. *)
Definition nameLt (a b : DirEntry) : Prop :=
  String.compare (Name a) (Name b) = Lt.

(** ** Sample logs and directories *)

Definition sampleLog : Log := mkLog "/wal" [] None DefaultConfig false false.

(** A directory with two segment files, a stray file and a subdirectory. *)
Definition sampleDir : filesystem :=
  <["/wal" := Directory]>
    (<["/wal/00000000000000000003" := RegularFile 416 [x01; x07; x00]]>
       (<["/wal/00000000000000000001" := RegularFile 416 [x02; x0a; x0b]]>
          (<["/wal/notes.txt" := RegularFile 416 [x68; x69]]>
             (<["/wal/tmp" := Directory]> ∅)))).

(** A directory whose only segment file announces five payload bytes and
    holds one. *)
Definition tornDir : filesystem :=
  <["/wal" := Directory]>
    (<["/wal/00000000000000000001" := RegularFile 416 [x05; x41]]> ∅).

(** A directory without segment files. *)
Definition freshDir : filesystem :=
  <["/wal" := Directory]> (<["/wal/notes.txt" := RegularFile 416 [x68; x69]]> ∅).

(** ** Position tables of framed buffers *)

(** The table of a buffer of whole records whose first byte is at position
    [cur]: one range per record, size prefix included. *)
Inductive framedAt : list byte -> Z -> list bytepos -> Prop :=
| framedAt_nil cur : framedAt [] cur []
| framedAt_record v n payload rest cur ps :
    isVarint v n ->
    len payload = n ->
    framedAt rest (cur + (len v + n)) ps ->
    framedAt (v ++ payload ++ rest) cur
      (mkBytepos cur (cur + (len v + n)) :: ps).

(** A range moved [delta] bytes further into a buffer. *)
Definition shiftPos (delta : Z) (p : bytepos) : bytepos :=
  mkBytepos (start p + delta) (end_ p + delta).

(** The slice expression [data[lo:hi]] within bounds. *)
Definition slice (data : list byte) (lo hi : Z) : list byte :=
  take (Z.to_nat (hi - lo)) (drop (Z.to_nat lo) data).

(** A file system every file of which fits a slice: no file is longer than
    the largest [int]. *)
Definition sliceable (fs : filesystem) : Prop :=
  map_Forall
    (fun _ nd =>
       match nd with
       | RegularFile _ data => len data <= MaxInt
       | Directory => True
       end) fs.

(** A directory in which the name of segment 1 is taken by a
    subdirectory. *)
Definition blockedDir : filesystem :=
  <["/wal" := Directory]> (<["/wal/00000000000000000001" := Directory]> ∅).

(** * Properties *)

(** ** Machine integers *)

Lemma u64_small z : 0 <= z < 2 ^ 64 -> u64 z = z.
Proof. intros H. unfold u64. now apply Z.mod_small. Qed.

Lemma int_small z : - 2 ^ 63 <= z < 2 ^ 63 -> int z = z.
Proof. intros H. unfold int. rewrite Z.mod_small; lia. Qed.

Lemma len_nonneg {A} (s : list A) : 0 <= len s.
Proof. unfold len. lia. Qed.

Lemma len_app {A} (s t : list A) : len (s ++ t) = len s + len t.
Proof. unfold len. rewrite length_app. lia. Qed.

Lemma len_cons {A} (a : A) (s : list A) : len (a :: s) = 1 + len s.
Proof. unfold len. simpl length. lia. Qed.

(** ** Bit arithmetic of the size prefix *)

Lemma byteZ_range b : 0 <= byteZ b < 256.
Proof.
  unfold byteZ. pose proof (Byte.to_N_bounded b) as H.
  lia.
Qed.

Lemma land127_range z : 0 <= z -> 0 <= Z.land z 127 < 128.
Proof.
  intros Hz. change 127 with (Z.ones 7). rewrite Z.land_ones by lia.
  apply Z.mod_pos_bound. lia.
Qed.

Lemma land127_small z : 0 <= z < 128 -> Z.land z 127 = z.
Proof.
  intros Hz. change 127 with (Z.ones 7). rewrite Z.land_ones by lia.
  apply Z.mod_small. lia.
Qed.

(** Setting bits above those of [x] adds. *)
Lemma lor_shiftl_add x y s :
  0 <= s -> 0 <= x < 2 ^ s -> Z.lor x (Z.shiftl y s) = x + y * 2 ^ s.
Proof.
  intros Hs Hx.
  rewrite <- Z.shiftl_mul_pow2 by lia.
  assert (Hland : Z.land x (Z.shiftl y s) = 0).
  { apply Z.bits_inj'. intros k Hk. rewrite Z.land_spec, Z.bits_0.
    destruct (Z.lt_ge_cases k s) as [Hlt | Hge].
    - rewrite (Z.shiftl_spec_low y s k) by lia. apply andb_false_r.
    - rewrite <- (Z.mod_small x (2 ^ s)) by lia.
      rewrite Z.mod_pow2_bits_high by lia. reflexivity. }
  rewrite Z.add_nocarry_lxor by exact Hland.
  rewrite Z.lxor_lor by exact Hland. reflexivity.
Qed.

Lemma base128_nonneg v : 0 <= base128 v.
Proof.
  induction v as [| b v IH]; simpl; [lia |].
  pose proof (byteZ_range b). pose proof (land127_range (byteZ b)). lia.
Qed.

Lemma base128_bound v : base128 v < 128 ^ len v.
Proof.
  induction v as [| b v IH]; [ reflexivity |].
  rewrite len_cons. cbn [base128].
  pose proof (byteZ_range b). pose proof (land127_range (byteZ b)).
  pose proof (len_nonneg v).
  replace (1 + len v) with (Z.succ (len v)) by lia.
  rewrite Z.pow_succ_r by lia. lia.
Qed.

Lemma base128_app v w : base128 (v ++ w) = base128 v + 128 ^ len v * base128 w.
Proof.
  induction v as [| b v IH]; cbn [base128 app].
  - change (len (@nil byte)) with 0. lia.
  - rewrite IH, len_cons. pose proof (len_nonneg v).
    replace (1 + len v) with (Z.succ (len v)) by lia.
    rewrite Z.pow_succ_r by lia. ring.
Qed.

(** One turn of the loop of [Uvarint] on a seven-bit digit: nothing is lost
    to the 64-bit reduction and the digit lands above the bits of [x]. *)
Lemma uvarint_step_value i x d :
  0 <= i <= 9 -> 0 <= x < 2 ^ (7 * i) -> 0 <= d < 128 -> (i = 9 -> d <= 1) ->
  Z.lor x (u64 (Z.shiftl d (7 * i))) = x + d * 2 ^ (7 * i).
Proof.
  intros Hi Hx Hd Hlast.
  assert (Hpow : 0 < 2 ^ (7 * i)) by (apply Z.pow_pos_nonneg; lia).
  assert (Hfit : 0 <= d * 2 ^ (7 * i) < 2 ^ 64).
  { split; [nia |].
    destruct (Z.eq_dec i 9) as [-> | Hne].
    - specialize (Hlast eq_refl). change (2 ^ (7 * 9)) with (2 ^ 63). lia.
    - assert (2 ^ (7 * i) <= 2 ^ 56) by (apply Z.pow_le_mono_r; lia).
      change (2 ^ 64) with (256 * 2 ^ 56). nia. }
  rewrite <- (lor_shiftl_add x d (7 * i)) by lia. f_equal.
  rewrite Z.shiftl_mul_pow2 by lia. apply u64_small. exact Hfit.
Qed.

Lemma pow2_step i : 0 <= i -> 2 ^ (7 * (i + 1)) = 128 * 2 ^ (7 * i).
Proof.
  intros Hi. replace (7 * (i + 1)) with (7 + 7 * i) by lia.
  rewrite Z.pow_add_r by lia. reflexivity.
Qed.

(** The decoder reads a well-formed size prefix whole, whatever follows. *)
Lemma uvarint_loop_complete cs : forall last rest i x,
  Forall (fun b => 128 <= byteZ b) cs ->
  byteZ last < 128 ->
  0 <= i ->
  i + len cs + 1 <= 10 ->
  (i + len cs + 1 = 10 -> byteZ last <= 1) ->
  0 <= x < 2 ^ (7 * i) ->
  uvarint_loop (cs ++ last :: rest) i x (7 * i)
  = (x + 2 ^ (7 * i) * base128 (cs ++ [last]), i + len cs + 1).
Proof.
  induction cs as [| b cs IH]; intros last rest i x Hcs Hlast Hi Hlen Hten Hx.
  - change (len (@nil byte)) with 0 in *. cbn [app uvarint_loop base128].
    pose proof (byteZ_range last) as Hb.
    destruct (Z.eqb_spec i MaxVarintLen64) as [He | _]; [unfold MaxVarintLen64 in He; lia |].
    destruct (Z.ltb_spec (byteZ last) 128) as [_ | Hge]; [| lia].
    assert (Hguard : (i =? MaxVarintLen64 - 1) && (1 <? byteZ last) = false).
    { destruct (Z.eqb_spec i (MaxVarintLen64 - 1)) as [He | _]; [| reflexivity].
      unfold MaxVarintLen64 in He. simpl. apply Z.ltb_ge. apply Hten. lia. }
    rewrite Hguard.
    rewrite uvarint_step_value; [| lia | lia | lia | intros ->; apply Hten; lia].
    rewrite land127_small by lia. f_equal; lia.
  - rewrite len_cons in *. pose proof (len_nonneg cs) as Hl.
    apply Forall_cons in Hcs as [Hb Hcs].
    cbn [app uvarint_loop].
    pose proof (byteZ_range b) as Hbr.
    pose proof (land127_range (byteZ b)) as Hd.
    destruct (Z.eqb_spec i MaxVarintLen64) as [He | _]; [unfold MaxVarintLen64 in He; lia |].
    destruct (Z.ltb_spec (byteZ b) 128) as [Hlt | _]; [lia |].
    rewrite uvarint_step_value; [| lia | lia | lia | lia].
    replace (7 * i + 7) with (7 * (i + 1)) by lia.
    rewrite IH; [| assumption | assumption | lia | lia | intros; apply Hten; lia |].
    + cbn [app base128]. rewrite pow2_step by lia. f_equal; ring.
    + rewrite pow2_step by lia. nia.
Qed.

(** Whenever the decoder reports a positive count it has read a well-formed
    size prefix of that many bytes. *)
Lemma uvarint_loop_sound buf : forall i x n k,
  0 <= i <= 10 ->
  0 <= x < 2 ^ (7 * i) ->
  uvarint_loop buf i x (7 * i) = (n, k) ->
  0 < k ->
  exists cs last rest,
    buf = cs ++ last :: rest /\
    Forall (fun b => 128 <= byteZ b) cs /\
    byteZ last < 128 /\
    k = i + len cs + 1 /\
    k <= 10 /\
    (k = 10 -> byteZ last <= 1) /\
    n = x + 2 ^ (7 * i) * base128 (cs ++ [last]).
Proof.
  induction buf as [| b buf IH]; intros i x n k Hi Hx Hrun Hk.
  - cbn in Hrun. injection Hrun as <- <-. lia.
  - cbn [uvarint_loop] in Hrun.
    pose proof (byteZ_range b) as Hbr.
    destruct (Z.eqb_spec i MaxVarintLen64) as [He | Hne].
    { injection Hrun as <- <-. lia. }
    unfold MaxVarintLen64 in Hne.
    destruct (Z.ltb_spec (byteZ b) 128) as [Hlt | Hge].
    + destruct ((i =? MaxVarintLen64 - 1) && (1 <? byteZ b)) eqn:Hguard.
      { injection Hrun as <- <-. lia. }
      assert (Hlast : i = 9 -> byteZ b <= 1).
      { intros ->. apply andb_false_iff in Hguard as [Hg | Hg].
        - discriminate Hg.
        - apply Z.ltb_ge in Hg. exact Hg. }
      rewrite uvarint_step_value in Hrun; [| lia | lia | lia | exact Hlast].
      injection Hrun as <- <-.
      exists [], b, buf. change (len (@nil byte)) with 0.
      cbn [app base128]. rewrite land127_small by lia.
      repeat split; try lia; try constructor.
      all: try (intros He; apply Hlast; lia).
    + pose proof (land127_range (byteZ b)) as Hd.
      assert (Hi9 : i <= 9) by lia.
      destruct (Z.eq_dec i 9) as [-> | Hne9].
      * (* the tenth byte carries on: the next turn reports the overflow *)
        destruct buf as [| b' buf']; cbn in Hrun; injection Hrun as <- <-; lia.
      * rewrite uvarint_step_value in Hrun; [| lia | lia | lia | lia].
        replace (7 * i + 7) with (7 * (i + 1)) in Hrun by lia.
        apply IH in Hrun; [| lia | rewrite pow2_step by lia; nia | exact Hk].
        destruct Hrun as (cs & last & rest & -> & Hcs & Hlast & -> & Hk10 & Hten & ->).
        exists (b :: cs), last, rest. rewrite len_cons.
        cbn [app base128]. rewrite pow2_step by lia.
        repeat split; try lia; try (constructor; assumption); try assumption.
        all: try (intros He; apply Hten; lia).
        all: try ring.
Qed.

(** Within ten bytes, the value fits 64 bits exactly when the tenth byte, if
    there is one, is at most [1]: the test the decoder makes. *)
Lemma varint_fits cs last :
  byteZ last < 128 ->
  len cs + 1 <= 10 ->
  base128 (cs ++ [last]) <= MaxUint64 <-> (len cs + 1 = 10 -> byteZ last <= 1).
Proof.
  intros Hlast Hlen.
  pose proof (byteZ_range last) as Hb.
  pose proof (base128_nonneg cs) as H0.
  pose proof (base128_bound cs) as Hcs.
  pose proof (len_nonneg cs) as Hl.
  rewrite base128_app. cbn [base128]. rewrite land127_small by lia.
  unfold MaxUint64.
  destruct (Z.eq_dec (len cs) 9) as [H9 | Hne].
  - rewrite H9 in *. change (128 ^ 9) with (2 ^ 63) in *.
    change (2 ^ 64) with (2 * 2 ^ 63). split; [intros Hv _ | intros Hv; specialize (Hv eq_refl)]; nia.
  - split; [intros _ He; lia | intros _].
    assert (Hp : 128 ^ len cs <= 128 ^ 8) by (apply Z.pow_le_mono_r; lia).
    assert (0 < 128 ^ len cs) by (apply Z.pow_pos_nonneg; lia).
    change (128 ^ 8) with (2 ^ 56) in Hp. change (2 ^ 64) with (256 * 2 ^ 56). nia.
Qed.

Lemma isVarint_range v n : isVarint v n -> 0 < len v /\ 0 <= n <= MaxUint64.
Proof.
  intros (cs & last & -> & _ & _ & _ & -> & Hmax).
  rewrite len_app, len_cons. change (len (@nil byte)) with 0.
  pose proof (len_nonneg cs). pose proof (base128_nonneg (cs ++ [last])). lia.
Qed.

Lemma Uvarint_complete v n rest :
  isVarint v n -> Uvarint (v ++ rest) = (n, len v).
Proof.
  intros (cs & last & -> & Hcs & Hlast & Hlen & -> & Hmax).
  rewrite len_app, len_cons in *. change (len (@nil byte)) with 0 in *.
  unfold MaxVarintLen64 in Hlen.
  unfold Uvarint. rewrite <- app_assoc. cbn [app].
  change 0 with (7 * 0) at 3.
  rewrite uvarint_loop_complete; try assumption; try lia.
  - change (2 ^ (7 * 0)) with 1. f_equal; lia.
  - apply varint_fits; [assumption | lia | assumption].
Qed.

Lemma Uvarint_sound data n k :
  Uvarint data = (n, k) -> 0 < k ->
  exists v rest, data = v ++ rest /\ len v = k /\ isVarint v n.
Proof.
  unfold Uvarint. intros Hrun Hk.
  change 0 with (7 * 0) in Hrun at 3.
  apply uvarint_loop_sound in Hrun; [| lia | change (2 ^ (7 * 0)) with 1; lia | exact Hk].
  destruct Hrun as (cs & last & rest & -> & Hcs & Hlast & -> & Hk10 & Hten & ->).
  exists (cs ++ [last]), rest.
  rewrite <- app_assoc. cbn [app].
  rewrite len_app, len_cons. change (len (@nil byte)) with 0.
  split; [reflexivity |]. split; [lia |].
  exists cs, last. rewrite len_app, len_cons. change (len (@nil byte)) with 0.
  unfold MaxVarintLen64.
  repeat split; try assumption; try lia.
  change (2 ^ (7 * 0)) with 1. rewrite Z.add_0_l, Z.mul_1_l.
  apply varint_fits; [assumption | lia |]. intros He. apply Hten. lia.
Qed.

(** ** The entry decoder *)

(** With the conversions between [int] and [uint64] undone: what
    [loadNextBinaryEntry] computes on a buffer a Go slice can hold. *)
Lemma loadNextBinaryEntry_eq data size bytesRead :
  len data <= MaxInt ->
  Uvarint data = (size, bytesRead) ->
  loadNextBinaryEntry data =
    if bytesRead <=? 0 then Err ErrCorrupt
    else if len data - bytesRead <? size then Err ErrCorrupt
    else Ok (bytesRead + size).
Proof.
  intros Hlen Hrun. unfold loadNextBinaryEntry. rewrite Hrun.
  destruct (Z.leb_spec bytesRead 0) as [Hle | Hpos]; [reflexivity |].
  destruct (Uvarint_sound _ _ _ Hrun Hpos) as (v & rest & -> & Hv & Hvar).
  apply isVarint_range in Hvar as [_ Hn].
  rewrite len_app in *. pose proof (len_nonneg rest) as Hr.
  unfold MaxInt, MaxUint64 in *.
  rewrite (int_small (len v + len rest - bytesRead)) by lia.
  rewrite u64_small by lia.
  destruct (Z.ltb_spec (len v + len rest - bytesRead) size) as [Hlt | Hge]; [reflexivity |].
  rewrite (int_small size) by lia. rewrite int_small by lia. reflexivity.
Qed.

(** The same in terms of the record format. *)
Lemma loadNextBinaryEntry_framed data :
  len data <= MaxInt ->
  match loadNextBinaryEntry data with
  | Ok k =>
      exists v n payload rest,
        data = v ++ payload ++ rest /\ isVarint v n /\ len payload = n /\
        k = len v + n
  | Err e =>
      e = ErrCorrupt /\
      forall v n payload rest,
        isVarint v n -> len payload = n -> data <> v ++ payload ++ rest
  | _ => False
  end.
Proof.
  intros Hlen. destruct (Uvarint data) as [size k] eqn:Hrun.
  rewrite (loadNextBinaryEntry_eq _ _ _ Hlen Hrun).
  destruct (Z.leb_spec k 0) as [Hle | Hpos].
  - split; [reflexivity |]. intros v n payload rest Hvar _ ->.
    rewrite (Uvarint_complete _ _ _ Hvar) in Hrun. injection Hrun as <- <-.
    apply isVarint_range in Hvar. lia.
  - destruct (Uvarint_sound _ _ _ Hrun Hpos) as (v & rest & -> & Hv & Hvar).
    rewrite len_app.
    destruct (Z.ltb_spec (len v + len rest - k) size) as [Hlt | Hge].
    + split; [reflexivity |]. intros v' n' payload' rest' Hvar' Hp' Heq.
      rewrite Heq in Hrun. rewrite (Uvarint_complete _ _ _ Hvar') in Hrun.
      injection Hrun as <- <-.
      apply (f_equal len) in Heq. rewrite !len_app in Heq.
      pose proof (len_nonneg rest'). lia.
    + pose proof (isVarint_range _ _ Hvar) as [_ Hn].
      exists v, size, (take (Z.to_nat size) rest), (drop (Z.to_nat size) rest).
      rewrite take_drop. repeat split; try assumption; try lia.
      unfold len in *. rewrite length_take. lia.
Qed.

(** ** The scan of a segment buffer *)

Lemma drop_record (v payload rest : list byte) :
  drop (Z.to_nat (len v + len payload)) (v ++ payload ++ rest) = rest.
Proof.
  unfold len. rewrite <- Nat2Z.inj_add, Nat2Z.id, <- length_app, app_assoc.
  apply drop_app_length.
Qed.

(** The first record of a buffer is determined by the buffer. *)
Lemma wellFramed_front v n payload rest :
  isVarint v n -> len payload = n ->
  wellFramed (v ++ payload ++ rest) -> wellFramed rest.
Proof.
  intros Hvar Hp Hwf.
  inversion Hwf as [Hnil | v' n' payload' rest' Hvar' Hp' Hrest Heq].
  - apply isVarint_range in Hvar as [Hv _].
    apply (f_equal len) in Hnil. rewrite len_app in Hnil.
    change (len (@nil byte)) with 0 in Hnil.
    pose proof (len_nonneg (payload ++ rest)). lia.
  - pose proof (Uvarint_complete _ _ (payload ++ rest) Hvar) as H1.
    pose proof (Uvarint_complete _ _ (payload' ++ rest') Hvar') as H2.
    rewrite Heq in H2. rewrite H1 in H2. injection H2 as Hn Hv.
    assert (Hdrop : rest' = rest).
    { rewrite <- (drop_record v' payload' rest'), <- (drop_record v payload rest).
      rewrite Heq. f_equal. lia. }
    rewrite <- Hdrop. exact Hrest.
Qed.

(** The loop, from any point of the buffer: it ends, with the table of a
    buffer made of whole records or with the wrapped [ErrCorrupt] of one
    that is not. *)
Lemma scanEntries_spec fuel : forall data pos cur,
  (length data <= fuel)%nat ->
  0 <= cur ->
  cur + len data <= MaxInt ->
  match scanEntries fuel data pos cur with
  | Ok table =>
      wellFramed data /\
      exists ps, table = pos ++ ps /\ tiles ps cur (cur + len data)
  | Err e => e = scanError /\ ~ wellFramed data
  | _ => False
  end.
Proof.
  induction fuel as [| fuel IH]; intros data pos cur Hfuel Hcur Hmax.
  - destruct data as [| b d]; [| simpl in Hfuel; lia].
    simpl. split; [constructor |]. exists []. rewrite app_nil_r.
    split; [reflexivity |]. simpl. change (len (@nil byte)) with 0. lia.
  - destruct data as [| b d].
    { simpl. split; [constructor |]. exists []. rewrite app_nil_r.
      split; [reflexivity |]. simpl. change (len (@nil byte)) with 0. lia. }
    cbn [scanEntries]. remember (b :: d) as data eqn:Hdata.
    assert (Hlen : len data <= MaxInt) by lia.
    pose proof (loadNextBinaryEntry_framed data Hlen) as Hnext.
    destruct (loadNextBinaryEntry data) as [k | e | |]; try contradiction.
    + destruct Hnext as (v & n & payload & rest & Heq & Hvar & Hp & Hk).
      pose proof (isVarint_range _ _ Hvar) as [Hv Hn].
      pose proof (len_nonneg payload) as Hpl. pose proof (len_nonneg rest) as Hrl.
      assert (Hdl : len data = len v + len payload + len rest).
      { rewrite Heq, !len_app. lia. }
      unfold slice_from.
      assert (Hin : (0 <=? k) && (k <=? len data) = true).
      { apply andb_true_iff. split; [apply Z.leb_le | apply Z.leb_le]; lia. }
      rewrite Hin.
      assert (Hrest : drop (Z.to_nat k) data = rest).
      { rewrite Hk, <- Hp, Heq. apply drop_record. }
      rewrite Hrest.
      unfold MaxInt in *. rewrite int_small by lia.
      specialize (IH rest (pos ++ [mkBytepos cur (cur + k)]) (cur + k)).
      assert (Hf : (length rest <= fuel)%nat).
      { unfold len in *. rewrite Heq in Hfuel. rewrite !length_app in Hfuel. lia. }
      specialize (IH Hf ltac:(lia) ltac:(lia)).
      destruct (scanEntries fuel rest _ (cur + k)) as [table | e | |]; try contradiction.
      * destruct IH as (Hwf & ps & -> & Htiles).
        split.
        { rewrite Heq. econstructor; eassumption. }
        exists (mkBytepos cur (cur + k) :: ps). rewrite <- app_assoc.
        split; [reflexivity |]. cbn [tiles start end_].
        repeat split; try lia.
        replace (cur + len data) with (cur + k + len rest) by lia. exact Htiles.
      * destruct IH as (-> & Hnwf). split; [reflexivity |].
        intros Hwf. apply Hnwf. rewrite Heq in Hwf.
        eapply wellFramed_front; eassumption.
    + destruct Hnext as (-> & Hnone). split; [reflexivity |].
      intros Hwf. inversion Hwf as [Hnil | v n payload rest Hvar Hp Hrest Heq].
      * rewrite Hdata in Hnil. discriminate Hnil.
      * exact (Hnone v n payload rest Hvar Hp (eq_sym Heq)).
Qed.

Lemma buildCache_spec data :
  len data <= MaxInt ->
  match buildCache data with
  | Ok table => wellFramed data /\ tiles table 0 (len data)
  | Err e => e = scanError /\ ~ wellFramed data
  | _ => False
  end.
Proof.
  intros Hlen. unfold buildCache.
  pose proof (scanEntries_spec (length data) data [] 0 (le_n _) ltac:(lia) ltac:(lia)) as H.
  destruct (scanEntries (length data) data [] 0) as [table | e | |]; try assumption.
  destruct H as (Hwf & ps & -> & Htiles). split; assumption.
Qed.

(** ** Decimal text *)

Lemma charZ_range c : 0 <= charZ c < 256.
Proof.
  unfold charZ. pose proof (N_ascii_bounded c). lia.
Qed.

Lemma charZ_digitChar d : 0 <= d <= 9 -> charZ (digitChar d) = 48 + d.
Proof.
  intros Hd. unfold charZ, digitChar.
  rewrite N_ascii_embedding by lia. lia.
Qed.

Lemma isDigit_digitChar d : 0 <= d <= 9 -> isDigit (digitChar d) = true.
Proof.
  intros Hd. unfold isDigit. rewrite charZ_digitChar by exact Hd.
  apply andb_true_iff. split; apply Z.leb_le; lia.
Qed.

Lemma isDigit_range c : isDigit c = true -> 0 <= charZ c - 48 <= 9.
Proof.
  unfold isDigit. intros H. apply andb_true_iff in H as [H1 H2].
  apply Z.leb_le in H1, H2. lia.
Qed.

Lemma valueFrom_app n cs ds : valueFrom n (cs ++ ds) = valueFrom (valueFrom n cs) ds.
Proof. revert n. induction cs as [| c cs IH]; intros n; simpl; [reflexivity | apply IH]. Qed.

Lemma valueFrom_shift cs : forall n,
  valueFrom n cs = n * 10 ^ len cs + valueFrom 0 cs.
Proof.
  induction cs as [| c cs IH]; intros n.
  - change (len (@nil ascii)) with 0. simpl. lia.
  - cbn [valueFrom]. rewrite (IH (n * 10 + _)), (IH (0 * 10 + _)).
    rewrite len_cons. pose proof (len_nonneg cs).
    replace (1 + len cs) with (Z.succ (len cs)) by lia.
    rewrite Z.pow_succ_r by lia. ring.
Qed.

Lemma valueFrom_digits_range cs :
  forallb isDigit cs = true -> 0 <= valueFrom 0 cs < 10 ^ len cs.
Proof.
  induction cs as [| c cs IH]; intros Hd.
  - change (len (@nil ascii)) with 0. simpl. lia.
  - cbn [forallb] in Hd. apply andb_true_iff in Hd as [Hc Hcs].
    apply isDigit_range in Hc. specialize (IH Hcs).
    cbn [valueFrom]. rewrite valueFrom_shift, len_cons.
    pose proof (len_nonneg cs).
    replace (1 + len cs) with (Z.succ (len cs)) by lia.
    rewrite Z.pow_succ_r by lia. nia.
Qed.

Lemma valueFrom_mono cs : forall n,
  0 <= n -> forallb isDigit cs = true -> n <= valueFrom n cs.
Proof.
  intros n Hn Hd. rewrite valueFrom_shift.
  pose proof (valueFrom_digits_range cs Hd).
  assert (1 <= 10 ^ len cs) by (pose proof (len_nonneg cs); apply Z.pow_pos_nonneg with (a := 10) in H0; lia).
  nia.
Qed.

(** [strconv.ParseUint]: the loop accepts exactly the runs of decimal digits
    whose value fits 64 bits, and returns that value. *)
Lemma parseUintLoop_spec cs : forall n,
  0 <= n <= MaxUint64 ->
  match parseUintLoop cs n with
  | Ok m => forallb isDigit cs = true /\ m = valueFrom n cs /\ m <= MaxUint64
  | Err _ => ~ (forallb isDigit cs = true /\ valueFrom n cs <= MaxUint64)
  | _ => False
  end.
Proof.
  induction cs as [| ch cs IH]; intros n Hn.
  - simpl. repeat split; lia.
  - cbn [parseUintLoop forallb valueFrom].
    pose proof (charZ_range ch) as Hc.
    change ((48 <=? charZ ch) && (charZ ch <=? 57)) with (isDigit ch).
    destruct (isDigit ch) eqn:Hdig; cbn [andb].
    + unfold isDigit in Hdig.
      apply andb_true_iff in Hdig as [H1 H2]. apply Z.leb_le in H1, H2.
      destruct (Z.leb_spec 10 (charZ ch - 48)) as [Hbad | _]; [lia |].
      unfold parseCutoff, MaxUint64 in *.
      change ((2 ^ 64 - 1) / 10 + 1) with 1844674407370955162.
      change (2 ^ 64 - 1) with 18446744073709551615 in *.
      destruct (Z.leb_spec 1844674407370955162 n) as [Hcut | Hcut].
      { intros [Hd Hv].
        pose proof (valueFrom_mono cs (n * 10 + (charZ ch - 48)) ltac:(lia) Hd). lia. }
      rewrite (u64_small (n * 10)) by (change (2 ^ 64) with 18446744073709551616; lia).
      destruct (Z.leb_spec (n * 10 + (charZ ch - 48)) 18446744073709551615) as [Hfit | Hover].
      * rewrite u64_small by (change (2 ^ 64) with 18446744073709551616; lia).
        destruct (Z.ltb_spec (n * 10 + (charZ ch - 48)) (n * 10)) as [Hlt | _]; [lia |].
        destruct (Z.ltb_spec 18446744073709551615 (n * 10 + (charZ ch - 48))) as [Hlt | _]; [lia |].
        cbn [orb andb]. apply IH. lia.
      * assert (Hwrap : u64 (n * 10 + (charZ ch - 48))
                        = n * 10 + (charZ ch - 48) - 18446744073709551616).
        { unfold u64. change (2 ^ 64) with 18446744073709551616.
          symmetry. apply Z.mod_unique with (q := 1); lia. }
        rewrite Hwrap.
        destruct (Z.ltb_spec (n * 10 + (charZ ch - 48) - 18446744073709551616) (n * 10))
          as [_ | Hge]; [| lia].
        cbn [orb]. intros [Hd Hv].
        pose proof (valueFrom_mono cs (n * 10 + (charZ ch - 48)) ltac:(lia) Hd). lia.
    + assert (Hsyn :
        match (if (97 <=? lower (charZ ch)) && (lower (charZ ch) <=? 122)
               then Some (lower (charZ ch) - 97 + 10) else None) with
        | Some d => (10 <=? d) = true
        | None => True
        end).
      { destruct ((97 <=? lower (charZ ch)) && (lower (charZ ch) <=? 122)) eqn:Hl;
          [| exact I].
        apply andb_true_iff in Hl as [H1 _]. apply Z.leb_le in H1.
        apply Z.leb_le. lia. }
      destruct (if (97 <=? lower (charZ ch)) && (lower (charZ ch) <=? 122)
                then Some (lower (charZ ch) - 97 + 10) else None) as [d |].
      * rewrite Hsyn. intros [Hd _]. discriminate Hd.
      * intros [Hd _]. discriminate Hd.
Qed.

Lemma ParseUint_spec s :
  match ParseUint s with
  | Ok m => allDigits s = true /\ s <> EmptyString /\ m = decimalValue s /\
            0 <= m <= MaxUint64
  | Err _ => ~ (allDigits s = true /\ s <> EmptyString /\ decimalValue s <= MaxUint64)
  | _ => False
  end.
Proof.
  unfold ParseUint, allDigits, decimalValue.
  destruct s as [| c s].
  - intros (_ & Hne & _). apply Hne. reflexivity.
  - pose proof (parseUintLoop_spec (list_ascii_of_string (String c s)) 0
                  ltac:(unfold MaxUint64; lia)) as H.
    destruct (parseUintLoop (list_ascii_of_string (String c s)) 0) as [m | e | |];
      try assumption.
    + destruct H as (Hd & -> & Hm). repeat split; try assumption; try discriminate.
      apply (valueFrom_mono _ 0); [lia | assumption].
    + intros (Hd & _ & Hv). apply H. split; assumption.
Qed.

(** ** [segmentName] *)

(** The digit loop writes the decimal digits of [u], at most [fuel] of
    them, in front of the buffer. *)
Lemma fmtDigits_spec fuel : forall u buf,
  0 <= u < 10 ^ Z.of_nat fuel ->
  (0 < fuel)%nat ->
  exists ds,
    fmtDigits fuel u buf = ds ++ buf /\
    (0 < length ds <= fuel)%nat /\
    forallb isDigit ds = true /\
    valueFrom 0 ds = u.
Proof.
  induction fuel as [| fuel IH]; intros u buf Hu Hfuel; [lia |].
  cbn [fmtDigits].
  destruct (Z.ltb_spec u 10) as [Hlt | Hge].
  - exists [digitChar u]. cbn [app length forallb valueFrom].
    rewrite isDigit_digitChar, charZ_digitChar by lia.
    repeat split; try lia; try reflexivity.
  - destruct fuel as [| fuel'].
    { change (10 ^ Z.of_nat 1) with 10 in Hu. lia. }
    assert (Hdiv : 0 <= u / 10 < 10 ^ Z.of_nat (S fuel')).
    { split; [apply Z.div_pos; lia |].
      apply Z.div_lt_upper_bound; [lia |].
      rewrite <- Z.pow_succ_r by lia. rewrite <- Nat2Z.inj_succ. lia. }
    destruct (IH (u / 10) (digitChar (u - u / 10 * 10) :: buf) Hdiv ltac:(lia))
      as (ds & -> & Hlen & Hd & Hv).
    assert (Hmod : 0 <= u - u / 10 * 10 <= 9).
    { pose proof (Z.mod_pos_bound u 10 ltac:(lia)). rewrite Z.mod_eq in H by lia. lia. }
    exists (ds ++ [digitChar (u - u / 10 * 10)]).
    rewrite <- app_assoc. split; [reflexivity |].
    rewrite length_app, forallb_app, valueFrom_app, Hd, Hv.
    cbn [length forallb valueFrom]. rewrite isDigit_digitChar, charZ_digitChar by lia.
    repeat split; try lia; try reflexivity.
Qed.

Lemma valueFrom_zeros k cs :
  valueFrom 0 (replicate k "0"%char ++ cs) = valueFrom 0 cs.
Proof. induction k as [| k IH]; simpl; [reflexivity | exact IH]. Qed.

Lemma forallb_zeros k : forallb isDigit (replicate k "0"%char) = true.
Proof. induction k as [| k IH]; simpl; [reflexivity | exact IH]. Qed.

Lemma length_string_of_list_ascii cs :
  String.length (string_of_list_ascii cs) = length cs.
Proof. induction cs as [| c cs IH]; simpl; [reflexivity | now rewrite IH]. Qed.

(** A segment name is twenty decimal digits that denote the index. *)
Lemma segmentName_spec u :
  0 <= u <= MaxUint64 ->
  String.length (segmentName u) = 20%nat /\
  allDigits (segmentName u) = true /\
  decimalValue (segmentName u) = u.
Proof.
  intros Hu. unfold segmentName, sprintf_0d, allDigits, decimalValue.
  destruct (fmtDigits_spec 20 u [])
    as (ds & Hds & Hlen & Hd & Hv); [unfold MaxUint64 in Hu; simpl; lia | lia |].
  rewrite app_nil_r in Hds. rewrite Hds.
  rewrite length_string_of_list_ascii, list_ascii_of_string_of_list_ascii.
  rewrite length_app, length_replicate, forallb_app, forallb_zeros, valueFrom_zeros.
  repeat split; [lia | assumption | assumption].
Qed.

Lemma ParseUint_segmentName u :
  0 <= u <= MaxUint64 -> ParseUint (segmentName u) = Ok u.
Proof.
  intros Hu. destruct (segmentName_spec u Hu) as (Hlen & Hd & Hv).
  pose proof (ParseUint_spec (segmentName u)) as H.
  destruct (ParseUint (segmentName u)) as [m | e | |]; try contradiction.
  - destruct H as (_ & _ & -> & _). now rewrite Hv.
  - exfalso. apply H. repeat split; [assumption | | lia].
    intros He. rewrite He in Hlen. discriminate Hlen.
Qed.

(** ** The order of file names *)

Lemma ascii_compare_charZ a b : Ascii.compare a b = (charZ a ?= charZ b).
Proof. unfold Ascii.compare, charZ. now rewrite N2Z.inj_compare. Qed.

Lemma string_compare_cons a s b t :
  String.compare (String a s) (String b t) =
    match charZ a ?= charZ b with
    | Eq => String.compare s t
    | Lt => Lt
    | Gt => Gt
    end.
Proof. cbn [String.compare]. now rewrite ascii_compare_charZ. Qed.

Lemma string_compare_refl s : String.compare s s = Eq.
Proof.
  induction s as [| a s IH]; [reflexivity |].
  rewrite string_compare_cons, Z.compare_refl. exact IH.
Qed.

Lemma string_compare_lt_trans s : forall t u,
  String.compare s t = Lt -> String.compare t u = Lt -> String.compare s u = Lt.
Proof.
  induction s as [| a s IH]; intros [| b t] [| c u]; try discriminate; try reflexivity.
  rewrite !string_compare_cons.
  destruct (Z.compare_spec (charZ a) (charZ b)) as [Hab | Hab | Hab]; try discriminate;
    destruct (Z.compare_spec (charZ b) (charZ c)) as [Hbc | Hbc | Hbc]; try discriminate;
    destruct (Z.compare_spec (charZ a) (charZ c)) as [Hac | Hac | Hac]; try lia;
    try reflexivity.
  apply IH.
Qed.

Lemma string_leb_compare s t :
  String.leb s t = true <-> String.compare s t = Lt \/ s = t.
Proof.
  unfold String.leb. split.
  - destruct (String.compare s t) eqn:Hc; try discriminate; intros _.
    + right. now apply String.compare_eq_iff.
    + now left.
  - intros [-> | ->]; [reflexivity |]. now rewrite string_compare_refl.
Qed.

#[global] Instance nameLe_trans : Transitive nameLe.
Proof.
  intros a b c. unfold nameLe. rewrite !string_leb_compare.
  intros [Hab | Hab] [Hbc | Hbc].
  - left. eapply string_compare_lt_trans; eassumption.
  - left. now rewrite <- Hbc.
  - left. now rewrite Hab.
  - right. congruence.
Qed.

#[global] Instance nameLe_total : Total nameLe.
Proof. intros a b. unfold nameLe. apply String.leb_total. Qed.

(** A listing sorted by name that lists no name twice ascends strictly. *)
Lemma sorted_names_strict files :
  StronglySorted nameLe files -> NoDup (Name <$> files) ->
  StronglySorted nameLt files.
Proof.
  induction 1 as [| f files Hs IH Hall]; intros Hnd; [constructor |].
  rewrite fmap_cons in Hnd. apply NoDup_cons in Hnd as [Hnotin Hnd].
  constructor; [apply IH; exact Hnd |].
  apply Forall_forall. intros g Hg.
  rewrite Forall_forall in Hall. specialize (Hall g Hg).
  apply string_leb_compare in Hall as [Hlt | Heq]; [exact Hlt |].
  exfalso. apply Hnotin. rewrite Heq. apply list_elem_of_fmap_2. exact Hg.
Qed.

(** Among digit strings of one length, the order of the strings is the
    order of the numbers. *)
Lemma compare_digits s : forall t,
  String.length s = String.length t ->
  allDigits s = true -> allDigits t = true ->
  String.compare s t = (decimalValue s ?= decimalValue t).
Proof.
  unfold allDigits, decimalValue.
  induction s as [| a s IH]; intros [| b t] Hlen Hs Ht; try discriminate Hlen.
  - reflexivity.
  - rewrite string_compare_cons.
    cbn [list_ascii_of_string forallb valueFrom] in *.
    apply andb_true_iff in Hs as [Ha Hs]. apply andb_true_iff in Ht as [Hb Ht].
    injection Hlen as Hlen.
    rewrite (valueFrom_shift _ (0 * 10 + (charZ a - 48))).
    rewrite (valueFrom_shift _ (0 * 10 + (charZ b - 48))).
    pose proof (valueFrom_digits_range _ Hs) as Hrs.
    pose proof (valueFrom_digits_range _ Ht) as Hrt.
    assert (Hk : len (list_ascii_of_string s) = len (list_ascii_of_string t)).
    { unfold len. f_equal.
      rewrite <- (length_string_of_list_ascii (list_ascii_of_string s)).
      rewrite <- (length_string_of_list_ascii (list_ascii_of_string t)).
      rewrite !string_of_list_ascii_of_string. exact Hlen. }
    rewrite Hk in *.
    set (p := 10 ^ len (list_ascii_of_string t)) in *.
    destruct (Z.compare_spec (charZ a) (charZ b)) as [Hab | Hab | Hab].
    + rewrite Hab. rewrite (IH t Hlen Hs Ht).
      symmetry. apply Z.add_compare_mono_l.
    + symmetry. apply Z.compare_lt_iff. nia.
    + symmetry. apply Z.compare_gt_iff. nia.
Qed.

(** ** Listing a directory *)

Lemma stripPrefix_Some p : forall s r, stripPrefix p s = Some r -> s = p +:+ r.
Proof.
  induction p as [| a p IH]; intros s r H; simpl in H.
  - now injection H as ->.
  - destruct s as [| b s]; [discriminate |].
    destruct (Ascii.eqb_spec a b) as [-> | _]; [| discriminate].
    change (String b p +:+ r) with (String b (p +:+ r)).
    f_equal. now apply IH.
Qed.

Lemma stripPrefix_app p : forall r, stripPrefix p (p +:+ r) = Some r.
Proof.
  induction p as [| a p IH]; intros r; [reflexivity |].
  change (String a p +:+ r) with (String a (p +:+ r)). cbn [stripPrefix].
  rewrite Ascii.eqb_refl. apply IH.
Qed.

Lemma string_app_assoc (a b c : string) : (a +:+ b) +:+ c = a +:+ (b +:+ c).
Proof.
  induction a as [| x a IH]; [reflexivity |].
  change (String x (a +:+ b) +:+ c = String x (a +:+ (b +:+ c))).
  change (String x ((a +:+ b) +:+ c) = String x (a +:+ (b +:+ c))).
  now rewrite IH.
Qed.

Lemma entryIn_Some dir pn e :
  entryIn dir pn = Some e ->
  pn.1 = Join dir (Name e) /\
  IsDir e = match pn.2 with Directory => true | RegularFile _ _ => false end.
Proof.
  unfold entryIn, Join. intros H.
  destruct (stripPrefix (dir +:+ "/") pn.1) as [name |] eqn:Hs; [| discriminate].
  destruct (hasSeparator name || bool_decide (name = EmptyString)); [discriminate |].
  injection H as <-. cbn [Name IsDir].
  apply stripPrefix_Some in Hs. rewrite string_app_assoc in Hs. split; [exact Hs | reflexivity].
Qed.

Lemma entryIn_Join dir name nd :
  hasSeparator name = false -> name <> EmptyString ->
  entryIn dir (Join dir name, nd) =
    Some (mkDirEntry name
            (match nd with Directory => true | RegularFile _ _ => false end)).
Proof.
  intros Hsep Hne. unfold entryIn, Join. cbn [fst snd].
  rewrite <- string_app_assoc, stripPrefix_app, Hsep.
  rewrite bool_decide_eq_false_2 by exact Hne. reflexivity.
Qed.

Lemma entry_names_NoDup dir (l : list (string * node)) :
  NoDup l.*1 -> NoDup (Name <$> omap (entryIn dir) l).
Proof.
  induction l as [| pn l IH]; intros Hnd; [constructor |].
  rewrite fmap_cons in Hnd. apply NoDup_cons in Hnd as [Hnotin Hnd].
  cbn [omap list_omap].
  destruct (entryIn dir pn) as [e |] eqn:He; [| apply IH; exact Hnd].
  rewrite fmap_cons. apply NoDup_cons. split; [| apply IH; exact Hnd].
  intros Hin. apply Hnotin.
  apply list_elem_of_fmap in Hin as (e' & Hname & Hin).
  apply list_elem_of_omap in Hin as (pn' & Hin & He').
  apply entryIn_Some in He as [Hp _]. apply entryIn_Some in He' as [Hp' _].
  apply list_elem_of_fmap. exists pn'. split; [congruence | exact Hin].
Qed.

(** [os.ReadDir] lists every name once, in ascending order of names. *)
Lemma ReadDir_sorted fs dir files :
  ReadDir fs dir = Ok files -> StronglySorted nameLt files.
Proof.
  unfold ReadDir. intros H.
  destruct (fs !! dir) as [[| perm content] |]; try discriminate.
  injection H as <-.
  apply sorted_names_strict.
  - apply StronglySorted_merge_sort; apply _.
  - rewrite merge_sort_Permutation.
    apply entry_names_NoDup, NoDup_fst_map_to_list.
Qed.

(** A listed entry that is not a directory is a regular file of the file
    system. *)
Lemma ReadDir_file fs dir files f :
  ReadDir fs dir = Ok files -> f ∈ files -> IsDir f = false ->
  exists perm content, fs !! Join dir (Name f) = Some (RegularFile perm content).
Proof.
  unfold ReadDir. intros H Hin Hfile.
  destruct (fs !! dir) as [[| perm content] |]; try discriminate.
  injection H as <-.
  rewrite merge_sort_Permutation in Hin.
  apply list_elem_of_omap in Hin as ([p nd] & Hin & He).
  apply elem_of_map_to_list in Hin.
  apply entryIn_Some in He as [Hp Hd]. cbn [fst snd] in *.
  rewrite Hfile in Hd. destruct nd as [| perm content]; [discriminate |].
  exists perm, content. now rewrite <- Hp.
Qed.

(** Every file directly in the directory is listed. *)
Lemma ReadDir_lists fs dir files name nd :
  ReadDir fs dir = Ok files ->
  fs !! Join dir name = Some nd ->
  hasSeparator name = false -> name <> EmptyString ->
  mkDirEntry name (match nd with Directory => true | RegularFile _ _ => false end)
    ∈ files.
Proof.
  unfold ReadDir. intros H Hlook Hsep Hne.
  destruct (fs !! dir) as [[| perm content] |]; try discriminate.
  injection H as <-.
  rewrite merge_sort_Permutation.
  apply list_elem_of_omap. exists (Join dir name, nd).
  split; [now apply elem_of_map_to_list | now apply entryIn_Join].
Qed.

(** ** The scan of the directory listing *)

Lemma substring_all s : substring 0 (String.length s) s = s.
Proof. induction s as [| c s IH]; simpl; [reflexivity | now rewrite IH]. Qed.

Lemma allDigits_nonempty_20 s : String.length s = 20%nat -> s <> EmptyString.
Proof. intros H ->. discriminate H. Qed.

(** One entry of the listing: it is registered exactly when it has the shape
    of a segment file; otherwise the segment list stays as it was. *)
Lemma registerEntry_spec dir segs file :
  registerEntry dir segs file =
    if isSegmentFile file then segs ++ [segmentOf dir file] else segs.
Proof.
  unfold registerEntry, isSegmentFile, segmentOf.
  destruct (IsDir file); cbn [negb orb andb]; [reflexivity |].
  destruct (Z.ltb_spec (Z.of_nat (String.length (Name file))) 20) as [Hlt | Hge].
  { destruct (Nat.eqb_spec (String.length (Name file)) 20) as [He | _]; [lia | reflexivity]. }
  destruct (Nat.eqb_spec (String.length (Name file)) 20) as [He | Hne]; cbn [andb].
  - assert (Hsub : substring 0 20 (Name file) = Name file).
    { rewrite <- He. apply substring_all. }
    rewrite Hsub.
    pose proof (ParseUint_spec (Name file)) as Hp.
    pose proof (allDigits_nonempty_20 _ He) as Hnonempty.
    destruct (ParseUint (Name file)) as [m | e | |]; try contradiction.
    + destruct Hp as (Hd & _ & -> & Hm). rewrite Hd. cbn [andb].
      destruct (Z.eqb_spec (decimalValue (Name file)) 0) as [H0 | H0].
      * rewrite H0. reflexivity.
      * destruct (Z.ltb_spec 0 (decimalValue (Name file))) as [_ | Hle]; [| lia].
        destruct (Z.leb_spec (decimalValue (Name file)) MaxUint64) as [_ | Hgt]; [| lia].
        destruct (Z.eqb_spec (Z.of_nat (String.length (Name file))) 20) as [_ | Hn]; [| lia].
        reflexivity.
    + destruct (allDigits (Name file)) eqn:Hd; cbn [andb]; [| reflexivity].
      destruct (Z.leb_spec (decimalValue (Name file)) MaxUint64) as [Hfit | _];
        [| now rewrite andb_false_r].
      exfalso. apply Hp. repeat split; assumption.
  - destruct (ParseUint (substring 0 20 (Name file))) as [m | e | |]; try reflexivity.
    destruct (m =? 0); [reflexivity |].
    destruct (Z.eqb_spec (Z.of_nat (String.length (Name file))) 20) as [Hn | _]; [lia | reflexivity].
Qed.

(** The whole loop: the segments registered are those of the entries with
    the shape of a segment file, in the order of the listing. *)
Lemma registerEntries_spec dir files : forall segs,
  foldl (registerEntry dir) segs files =
    segs ++ (segmentOf dir <$> List.filter isSegmentFile files).
Proof.
  induction files as [| f files IH]; intros segs; cbn [foldl List.filter].
  - now rewrite app_nil_r.
  - rewrite IH, registerEntry_spec.
    destruct (isSegmentFile f); [| reflexivity].
    rewrite fmap_cons, <- app_assoc. reflexivity.
Qed.

Lemma isSegmentFile_shape f :
  isSegmentFile f = true ->
  IsDir f = false /\ String.length (Name f) = 20%nat /\
  allDigits (Name f) = true /\ 0 < decimalValue (Name f) <= MaxUint64.
Proof.
  unfold isSegmentFile. intros H.
  repeat (apply andb_true_iff in H as [H ?]).
  apply negb_true_iff in H. apply Nat.eqb_eq in H3.
  apply Z.ltb_lt in H1. apply Z.leb_le in H0. auto.
Qed.

(** Registered in the order of a sorted listing, the starting indices
    ascend strictly. *)
Lemma registered_indices_sorted dir files :
  StronglySorted nameLt files ->
  StronglySorted Z.lt (index <$> (segmentOf dir <$> List.filter isSegmentFile files)).
Proof.
  induction 1 as [| f files Hs IH Hall]; cbn [List.filter]; [constructor |].
  destruct (isSegmentFile f) eqn:Hf; [| exact IH].
  rewrite !fmap_cons. constructor; [exact IH |].
  apply Forall_forall. intros x Hx.
  apply list_elem_of_fmap in Hx as (s & -> & Hx).
  apply list_elem_of_fmap in Hx as (g & -> & Hx).
  apply list_elem_of_In, List.filter_In in Hx as [Hg Hgs].
  apply list_elem_of_In in Hg.
  rewrite Forall_forall in Hall. specialize (Hall g Hg).
  apply isSegmentFile_shape in Hf as (_ & Hlf & Hdf & _).
  apply isSegmentFile_shape in Hgs as (_ & Hlg & Hdg & _).
  cbn [segmentOf index]. unfold nameLt in Hall.
  rewrite compare_digits in Hall by congruence.
  now apply Z.compare_lt_iff.
Qed.

(** ** Opening the tail segment *)

Lemma scanEntries_Err fuel : forall d pos cur e,
  scanEntries fuel d pos cur = Err e -> e = scanError.
Proof.
  induction fuel as [| fuel IH]; intros d pos cur e H.
  - destruct d; simpl in H; discriminate H.
  - destruct d as [| b d]; [simpl in H; discriminate H |].
    cbn [scanEntries] in H. unfold loadNextBinaryEntry in H.
    destruct (Uvarint (b :: d)) as [size k].
    destruct (k <=? 0); [injection H as <-; reflexivity |].
    destruct (u64 (int (len (b :: d) - k)) <? size); [injection H as <-; reflexivity |].
    destruct (slice_from (b :: d) (int (k + int size))) as [d' |]; [| discriminate H].
    eapply IH. exact H.
Qed.

Lemma buildCache_Err data e : buildCache data = Err e -> e = scanError.
Proof. apply scanEntries_Err. Qed.

Lemma errors_Is_scanError : errors_Is scanError ErrCorrupt = true.
Proof. reflexivity. Qed.

(** [openLastSegment] on a segment whose file is a regular file: the file is
    opened write-only and left as it is, the handle is moved to the end of
    the file, and the outcome is that of the scan of the file's contents. *)
Lemma openLastSegment_regular l fs i seg perm data :
  segments l !! i = Some seg ->
  fs !! path seg = Some (RegularFile perm data) ->
  openLastSegment l fs i =
    let h := mkFile (path seg) O_WRONLY (FilePerms (config l)) (len data) in
    match buildCache data with
    | Ok table =>
        (Ok tt,
         setSegments (setSfile l h)
           (<[i := mkSegment (path seg) (index seg) data table]> (segments l)),
         fs)
    | Err e =>
        (Err (Errorf "failed to load last log segment entries" e), setSfile l h, fs)
    | Panic => (Panic, setSfile l h, fs)
    | OutOfFuel => (OutOfFuel, setSfile l h, fs)
    end.
Proof.
  intros Hseg Hfile. unfold openLastSegment. rewrite Hseg.
  unfold OpenFile. rewrite Hfile.
  change (hasFlag O_WRONLY O_TRUNC) with false. cbn [andb].
  unfold Seek. cbn [fname fflag fperm foffset]. rewrite Hfile.
  change (2 =? 0) with false. change (2 =? 1) with false. change (2 =? 2) with true.
  cbn iota. rewrite Z.add_0_r.
  destruct (Z.ltb_spec (len data) 0) as [Hneg | _]; [pose proof (len_nonneg data); lia |].
  unfold loadSegmentEntries. cbn [segments setSfile]. rewrite Hseg.
  unfold ReadFile. rewrite Hfile.
  destruct (buildCache data); reflexivity.
Qed.

Lemma len_zero_iff {A} (s : list A) : (len s =? 0) = true <-> s = [].
Proof.
  unfold len. rewrite Z.eqb_eq. destruct s; simpl; split; intros H; try reflexivity; try lia.
  discriminate H.
Qed.

(** [loadSegments] when the listing has no segment file. *)
Lemma loadSegments_none l fs files :
  segments l = [] ->
  ReadDir fs (lpath l) = Ok files ->
  List.filter isSegmentFile files = [] ->
  loadSegments l fs =
    match createInitialSegment l fs with
    | (Err e, l2, fs2) =>
        (Err (Errorf "failed to create initial log segment" e), l2, fs2)
    | r => r
    end.
Proof.
  intros Hsegs Hdir Hnone. unfold loadSegments. rewrite Hdir.
  rewrite registerEntries_spec, Hsegs, Hnone. cbn [fmap list_fmap app].
  cbn [segments setSegments]. change (len (@nil segment) =? 0) with true. cbn iota.
  destruct l as [p s f c cl co]. cbn in Hsegs. subst s. reflexivity.
Qed.

(** [loadSegments] when the listing has a segment file: the last of them is
    a regular file, and the outcome is that of the scan of its contents. *)
Lemma loadSegments_some l fs files f :
  segments l = [] ->
  ReadDir fs (lpath l) = Ok files ->
  last (List.filter isSegmentFile files) = Some f ->
  exists perm data,
    fs !! Join (lpath l) (Name f) = Some (RegularFile perm data) /\
    loadSegments l fs =
      let segs := segmentOf (lpath l) <$> List.filter isSegmentFile files in
      let h := mkFile (Join (lpath l) (Name f)) O_WRONLY (FilePerms (config l))
                 (len data) in
      match buildCache data with
      | Ok table =>
          (Ok tt,
           setSegments (setSfile l h)
             (<[pred (length segs) :=
                  mkSegment (Join (lpath l) (Name f)) (decimalValue (Name f))
                    data table]> segs),
           fs)
      | Err e =>
          (Err (Errorf "failed to open last log segment"
                  (Errorf "failed to load last log segment entries" e)),
           setSfile (setSegments l segs) h, fs)
      | Panic => (Panic, setSfile (setSegments l segs) h, fs)
      | OutOfFuel => (OutOfFuel, setSfile (setSegments l segs) h, fs)
      end.
Proof.
  intros Hsegs Hdir Hlast.
  assert (Hin : f ∈ files /\ isSegmentFile f = true).
  { apply last_Some_elem_of, list_elem_of_In, List.filter_In in Hlast as [Hin Hf].
    split; [now apply list_elem_of_In | exact Hf]. }
  destruct Hin as [Hin Hf].
  pose proof (isSegmentFile_shape _ Hf) as (Hnodir & _).
  destruct (ReadDir_file _ _ _ _ Hdir Hin Hnodir) as (perm & data & Hfile).
  exists perm, data. split; [exact Hfile |].
  unfold loadSegments. rewrite Hdir, registerEntries_spec, Hsegs. cbn [app].
  cbn [segments setSegments].
  set (segs := segmentOf (lpath l) <$> List.filter isSegmentFile files).
  assert (Hlastseg : last segs = Some (segmentOf (lpath l) f)).
  { unfold segs. rewrite fmap_last, Hlast. reflexivity. }
  assert (Hne : (len segs =? 0) = false).
  { destruct (len segs =? 0) eqn:Hz; [| reflexivity].
    apply len_zero_iff in Hz. rewrite Hz in Hlastseg. discriminate Hlastseg. }
  rewrite Hne.
  assert (Hidx : Z.to_nat (len segs - 1) = pred (length segs)) by (unfold len; lia).
  rewrite Hidx.
  rewrite last_lookup in Hlastseg.
  rewrite (openLastSegment_regular _ fs _ (segmentOf (lpath l) f) perm data);
    [| exact Hlastseg | exact Hfile].
  cbn [segmentOf path index segments setSegments config lpath].
  destruct (buildCache data); reflexivity.
Qed.

(** ** The position table *)

(** What a tiling says, range by range. *)
Lemma tiles_ranges ps : forall from to,
  tiles ps from to ->
  from <= to /\
  (forall p, ps !! 0%nat = Some p -> start p = from) /\
  (forall k p q, ps !! k = Some p -> ps !! S k = Some q -> end_ p = start q) /\
  (forall p, last ps = Some p -> end_ p = to) /\
  (forall p, p ∈ ps -> start p < end_ p) /\
  (from = to -> ps = []).
Proof.
  induction ps as [| p ps IH]; intros from to H; cbn [tiles] in H.
  - subst to. repeat split; try lia; try discriminate.
    intros p Hp. inversion Hp.
  - destruct H as (Hstart & Hlt & Hrest).
    destruct (IH _ _ Hrest) as (Hle & Hhead & Hadj & Hlast & Hne & Hempty).
    split; [lia |]. split.
    { intros p' Hp'. cbn in Hp'. injection Hp' as <-. exact Hstart. }
    split.
    { intros [| k] p' q Hp' Hq; cbn in Hp', Hq.
      - injection Hp' as <-. symmetry. now apply Hhead.
      - eapply Hadj; eassumption. }
    split.
    { intros p' Hp'. rewrite last_cons in Hp'.
      destruct (last ps) as [y |] eqn:Hl.
      - injection Hp' as <-. now apply Hlast.
      - injection Hp' as <-. apply last_None in Hl. subst ps.
        cbn [tiles] in Hrest. exact Hrest. }
    split.
    { intros p' Hp'. apply elem_of_cons in Hp' as [-> | Hp']; [exact Hlt | now apply Hne]. }
    intros He. lia.
Qed.

Lemma loadSegmentEntries_read l fs i seg data :
  segments l !! i = Some seg ->
  ReadFile fs (path seg) = Ok data ->
  loadSegmentEntries l fs i =
    match buildCache data with
    | Ok table =>
        (Ok tt,
         setSegments l (<[i := mkSegment (path seg) (index seg) data table]> (segments l)))
    | Err e => (Err e, l)
    | Panic => (Panic, l)
    | OutOfFuel => (OutOfFuel, l)
    end.
Proof. intros Hseg Hread. unfold loadSegmentEntries. now rewrite Hseg, Hread. Qed.

(** * The claims *)

(** C1. On every buffer a slice can hold, [loadNextBinaryEntry] fails with
    [ErrCorrupt] when [Uvarint] consumed no byte or reported an overflow
    (a count of zero or less), and when the size it decoded exceeds the
    bytes left after the size prefix; in every other case it succeeds and
    returns the width of the prefix plus the decoded size. *)
Theorem loadNextBinaryEntry_outcome data size bytesRead :
  len data <= MaxInt ->
  Uvarint data = (size, bytesRead) ->
  (bytesRead <= 0 \/ len data - bytesRead < size ->
   loadNextBinaryEntry data = Err ErrCorrupt) /\
  (0 < bytesRead /\ size <= len data - bytesRead ->
   loadNextBinaryEntry data = Ok (bytesRead + size)).
Proof.
  intros Hlen Hrun. rewrite (loadNextBinaryEntry_eq _ _ _ Hlen Hrun).
  split.
  - intros [Hk | Hshort].
    + destruct (Z.leb_spec bytesRead 0); [reflexivity | lia].
    + destruct (bytesRead <=? 0); [reflexivity |].
      destruct (Z.ltb_spec (len data - bytesRead) size); [reflexivity | lia].
  - intros [Hk Hfits].
    destruct (Z.leb_spec bytesRead 0); [lia |].
    destruct (Z.ltb_spec (len data - bytesRead) size); [lia | reflexivity].
Qed.

Lemma loadNextBinaryEntry_outcome_witness :
  loadNextBinaryEntry [x05; x41] = Err ErrCorrupt /\
  loadNextBinaryEntry [x02; x0a; x0b] = Ok (1 + 2).
Proof.
  split.
  - apply (loadNextBinaryEntry_outcome [x05; x41] 5 1);
      [vm_compute; discriminate | reflexivity | right; vm_compute; reflexivity].
  - apply (loadNextBinaryEntry_outcome [x02; x0a; x0b] 2 1);
      [vm_compute; discriminate | reflexivity |].
    split; [reflexivity | vm_compute; discriminate].
Defined.

(** C2. For the contents [data] of the file of a segment,
    [loadSegmentEntries] succeeds exactly when [data] is made of whole
    records (none at all for the empty file), and on any other contents it
    returns an error that wraps [ErrCorrupt]. *)
Theorem loadSegmentEntries_succeeds_iff l fs i seg data :
  segments l !! i = Some seg ->
  ReadFile fs (path seg) = Ok data ->
  len data <= MaxInt ->
  ((loadSegmentEntries l fs i).1 = Ok tt <-> wellFramed data) /\
  (~ wellFramed data ->
   exists e, (loadSegmentEntries l fs i).1 = Err e /\
             errors_Is e ErrCorrupt = true).
Proof.
  intros Hseg Hread Hlen.
  rewrite (loadSegmentEntries_read _ _ _ _ _ Hseg Hread).
  pose proof (buildCache_spec data Hlen) as Hspec.
  destruct (buildCache data) as [table | e | |]; try contradiction; cbn [fst].
  - destruct Hspec as [Hwf _]. split; [tauto | contradiction].
  - destruct Hspec as [-> Hnwf]. split.
    + split; [discriminate | contradiction].
    + intros _. exists scanError. split; [reflexivity | apply errors_Is_scanError].
Qed.

Lemma loadSegmentEntries_succeeds_iff_witness :
  ((loadSegmentEntries
      (mkLog "/wal" [mkSegment "/wal/00000000000000000001" 1 [] []] None
         DefaultConfig false false) tornDir 0).1 = Ok tt
   <-> wellFramed [x05; x41]) /\
  (~ wellFramed [x05; x41] ->
   exists e,
     (loadSegmentEntries
        (mkLog "/wal" [mkSegment "/wal/00000000000000000001" 1 [] []] None
           DefaultConfig false false) tornDir 0).1 = Err e /\
     errors_Is e ErrCorrupt = true).
Proof.
  apply (loadSegmentEntries_succeeds_iff _ tornDir 0%nat
           (mkSegment "/wal/00000000000000000001" 1 [] []) [x05; x41]);
    [reflexivity | reflexivity | vm_compute; discriminate].
Defined.

(** Each range of a tiling lies between its two ends. *)
Lemma tiles_bounds ps : forall a b,
  tiles ps a b ->
  forall k p, ps !! k = Some p -> a <= start p /\ end_ p <= b.
Proof.
  induction ps as [| q ps IH]; intros a b Ht k p Hk; [discriminate Hk |].
  cbn [tiles] in Ht. destruct Ht as (Hs & Hlt & Hrest).
  destruct (tiles_ranges _ _ _ Hrest) as (Hle & _).
  destruct k as [| k]; cbn in Hk.
  - injection Hk as <-. lia.
  - destruct (IH _ _ Hrest k p Hk) as [H1 H2]. lia.
Qed.

(** Each position between the two ends of a tiling lies in one range, and
    in one only. *)
Lemma tiles_cover ps : forall a b,
  tiles ps a b ->
  forall x, a <= x < b ->
  exists k p,
    ps !! k = Some p /\ start p <= x < end_ p /\
    forall k' p', ps !! k' = Some p' -> start p' <= x < end_ p' -> k' = k.
Proof.
  induction ps as [| q ps IH]; intros a b Ht x Hx; cbn [tiles] in Ht.
  - lia.
  - destruct Ht as (Hs & Hlt & Hrest).
    destruct (Z.lt_ge_cases x (end_ q)) as [Hin | Hout].
    + exists 0%nat, q. split; [reflexivity |]. split; [lia |].
      intros [| k'] p' Hk' Hp'; [reflexivity |]. cbn in Hk'.
      destruct (tiles_bounds _ _ _ Hrest k' p' Hk') as [H1 _]. lia.
    + destruct (IH _ _ Hrest x ltac:(lia)) as (k & p & Hk & Hp & Huniq).
      exists (S k), p. split; [exact Hk |]. split; [exact Hp |].
      intros [| k'] p' Hk' Hp'; cbn in Hk'.
      * injection Hk' as <-. lia.
      * f_equal. eapply Huniq; eassumption.
Qed.

(** C10. When [loadSegmentEntries] succeeds on a segment, the recorded
    ranges partition the cached buffer into consecutive non-empty pieces:
    the table tiles the buffer from [0] to its length, so that every byte
    position of the buffer lies in exactly one range; the first range starts
    at [0], each ends where the next starts, the last ends at the length of
    the buffer, none is empty, and the table is empty exactly when the
    buffer is. *)
Theorem loadSegmentEntries_partition l fs i seg data l' :
  segments l !! i = Some seg ->
  ReadFile fs (path seg) = Ok data ->
  len data <= MaxInt ->
  loadSegmentEntries l fs i = (Ok tt, l') ->
  exists seg',
    segments l' !! i = Some seg' /\
    cbuf seg' = data /\
    tiles (cpos seg') 0 (len (cbuf seg')) /\
    (cpos seg' = [] <-> len (cbuf seg') = 0) /\
    (forall x, 0 <= x < len (cbuf seg') ->
       exists k p,
         cpos seg' !! k = Some p /\ start p <= x < end_ p /\
         forall k' p',
           cpos seg' !! k' = Some p' -> start p' <= x < end_ p' -> k' = k) /\
    (forall p, cpos seg' !! 0%nat = Some p -> start p = 0) /\
    (forall k p q,
        cpos seg' !! k = Some p -> cpos seg' !! S k = Some q ->
        end_ p = start q) /\
    (forall p, last (cpos seg') = Some p -> end_ p = len (cbuf seg')) /\
    (forall p, p ∈ cpos seg' -> start p < end_ p).
Proof.
  intros Hseg Hread Hlen Hrun.
  rewrite (loadSegmentEntries_read _ _ _ _ _ Hseg Hread) in Hrun.
  pose proof (buildCache_spec data Hlen) as Hspec.
  destruct (buildCache data) as [table | e | |]; try discriminate Hrun.
  destruct Hspec as [_ Htiles]. injection Hrun as <-.
  exists (mkSegment (path seg) (index seg) data table).
  cbn [segments setSegments cbuf cpos].
  split. { apply list_lookup_insert_eq. eapply lookup_lt_Some. exact Hseg. }
  split; [reflexivity |].
  destruct (tiles_ranges _ _ _ Htiles) as (_ & Hhead & Hadj & Hlast & Hne & Hempty).
  split; [exact Htiles |].
  split.
  { split.
    - intros ->. cbn [tiles] in Htiles. lia.
    - intros H0. apply Hempty. lia. }
  split; [intros x Hx; exact (tiles_cover _ _ _ Htiles x Hx) |].
  repeat split; assumption.
Qed.

Lemma loadSegmentEntries_partition_witness :
  exists seg',
    segments
      (loadSegmentEntries
         (mkLog "/wal" [mkSegment "/wal/00000000000000000003" 3 [] []] None
            DefaultConfig false false) sampleDir 0).2 !! 0%nat = Some seg' /\
    cbuf seg' = [x01; x07; x00] /\
    tiles (cpos seg') 0 (len (cbuf seg')) /\
    (cpos seg' = [] <-> len (cbuf seg') = 0) /\
    (forall x, 0 <= x < len (cbuf seg') ->
       exists k p,
         cpos seg' !! k = Some p /\ start p <= x < end_ p /\
         forall k' p',
           cpos seg' !! k' = Some p' -> start p' <= x < end_ p' -> k' = k) /\
    (forall p, cpos seg' !! 0%nat = Some p -> start p = 0) /\
    (forall k p q,
        cpos seg' !! k = Some p -> cpos seg' !! S k = Some q ->
        end_ p = start q) /\
    (forall p, last (cpos seg') = Some p -> end_ p = len (cbuf seg')) /\
    (forall p, p ∈ cpos seg' -> start p < end_ p).
Proof.
  apply (loadSegmentEntries_partition
           (mkLog "/wal" [mkSegment "/wal/00000000000000000003" 3 [] []] None
              DefaultConfig false false)
           sampleDir 0%nat (mkSegment "/wal/00000000000000000003" 3 [] [])
           [x01; x07; x00]);
    [reflexivity | reflexivity | vm_compute; discriminate | reflexivity].
Defined.

(** C5. In the scan of the directory listing an entry is registered as a
    segment exactly when it is not a directory and its name is twenty
    decimal digits denoting a positive 64-bit number, which becomes its
    starting index; any other entry leaves the segment list as it was. The
    loop has no way out with an error: its result is the list of the
    segments of the matching entries, in listing order. *)
Theorem registerEntry_iff_segment_file dir segs files :
  (forall file,
      registerEntry dir segs file =
        if isSegmentFile file
        then segs ++ [mkSegment (Join dir (Name file)) (decimalValue (Name file)) [] []]
        else segs) /\
  (forall file,
      isSegmentFile file = true ->
      ParseUint (Name file) = Ok (decimalValue (Name file))) /\
  foldl (registerEntry dir) segs files =
    segs ++ (segmentOf dir <$> List.filter isSegmentFile files).
Proof.
  split; [intros file; apply registerEntry_spec |].
  split; [| apply registerEntries_spec].
  intros file Hf. apply isSegmentFile_shape in Hf as (_ & Hlen & Hd & Hv).
  pose proof (ParseUint_spec (Name file)) as Hp.
  destruct (ParseUint (Name file)) as [m | e | |]; try contradiction.
  - destruct Hp as (_ & _ & -> & _). reflexivity.
  - exfalso. apply Hp. repeat split; [assumption | | lia].
    now apply allDigits_nonempty_20.
Qed.

(** C9. For starting indices [a < b] within 64 bits, the names of their
    segment files are twenty decimal digits each, and the name of [a] comes
    before the name of [b] in the order of strings; so distinct indices have
    distinct names. *)
Theorem segmentName_order a b :
  0 <= a -> a < b -> b <= MaxUint64 ->
  String.length (segmentName a) = 20%nat /\
  String.length (segmentName b) = 20%nat /\
  allDigits (segmentName a) = true /\
  allDigits (segmentName b) = true /\
  String.ltb (segmentName a) (segmentName b) = true /\
  segmentName a <> segmentName b.
Proof.
  intros Ha Hab Hb.
  destruct (segmentName_spec a ltac:(lia)) as (Hla & Hda & Hva).
  destruct (segmentName_spec b ltac:(lia)) as (Hlb & Hdb & Hvb).
  assert (Hcmp : String.compare (segmentName a) (segmentName b) = Lt).
  { rewrite compare_digits by congruence. rewrite Hva, Hvb. now apply Z.compare_lt_iff. }
  repeat split; try assumption.
  - unfold String.ltb. now rewrite Hcmp.
  - intros Heq. rewrite Heq, string_compare_refl in Hcmp. discriminate Hcmp.
Qed.

Lemma segmentName_order_witness :
  String.length (segmentName 9) = 20%nat /\
  String.length (segmentName 10) = 20%nat /\
  allDigits (segmentName 9) = true /\
  allDigits (segmentName 10) = true /\
  String.ltb (segmentName 9) (segmentName 10) = true /\
  segmentName 9 <> segmentName 10.
Proof.
  apply (segmentName_order 9 10); [lia | lia | vm_compute; discriminate].
Defined.

(** C8, as the code has it. [Validate] gives [SegmentSize], [DirPerms] and
    [FilePerms] their defaults (20 MiB, 0750, 0640) when they are unset or
    invalid and keeps them otherwise; [Sync] is left as it was given. *)
Theorem Validate_defaults c :
  SegmentSize (Validate c)
    = (if SegmentSize c <=? 0 then 20 * 1024 * 1024 else SegmentSize c) /\
  DirPerms (Validate c) = (if DirPerms c =? 0 then 488 else DirPerms c) /\
  FilePerms (Validate c) = (if FilePerms c =? 0 then 416 else FilePerms c) /\
  Sync (Validate c) = Sync c.
Proof.
  unfold Validate.
  destruct (SegmentSize c <=? 0); cbn [SegmentSize DirPerms FilePerms Sync];
    destruct (DirPerms c =? 0); cbn [SegmentSize DirPerms FilePerms Sync];
    destruct (FilePerms c =? 0); cbn [SegmentSize DirPerms FilePerms Sync];
    repeat split.
Qed.

(** C8, as stated, fails on [Sync]: a configuration with nothing set keeps
    [Sync = false] through [Validate], while the default is [true]. *)
Lemma Validate_keeps_Sync_unset :
  Sync DefaultConfig = true /\
  Sync (Validate (mkConfig false 0 0 0)) = false /\
  Sync (Validate (mkConfig false 0 0 0)) <> Sync DefaultConfig.
Proof. repeat split. discriminate. Qed.

(** ** Loading at open *)

Lemma loadSegments_ReadDir l fs l' fs' :
  loadSegments l fs = (Ok tt, l', fs') ->
  exists files, ReadDir fs (lpath l) = Ok files.
Proof.
  unfold loadSegments. intros H.
  destruct (ReadDir fs (lpath l)) as [files | e | |]; try discriminate H.
  now exists files.
Qed.

Lemma createInitialSegment_Ok l fs l' fs' :
  createInitialSegment l fs = (Ok tt, l', fs') ->
  let name := Join (lpath l) "00000000000000000001" in
  let flag := Z.lor (Z.lor O_CREATE O_RDWR) O_TRUNC in
  segments l' = segments l ++ [mkSegment name 1 [] []] /\
  sfile l' = Some (mkFile name flag (FilePerms (config l)) 0) /\
  (fs !! name = None /\ fs' = <[name := RegularFile (FilePerms (config l)) []]> fs \/
   exists perm content,
     fs !! name = Some (RegularFile perm content) /\
     fs' = <[name := RegularFile perm []]> fs).
Proof.
  unfold createInitialSegment.
  change (segmentName 1) with "00000000000000000001"%string.
  cbn [path config setSegments]. unfold OpenFile.
  destruct (fs !! Join (lpath l) "00000000000000000001") as [[| perm content] |] eqn:Hlook.
  - change (accessMode (Z.lor (Z.lor O_CREATE O_RDWR) O_TRUNC) =? O_RDONLY) with false.
    cbn iota. intros H. discriminate H.
  - change (hasFlag (Z.lor (Z.lor O_CREATE O_RDWR) O_TRUNC) O_TRUNC) with true.
    change (accessMode (Z.lor (Z.lor O_CREATE O_RDWR) O_TRUNC) =? O_RDONLY) with false.
    cbn [andb negb]. intros H. injection H as <- <-.
    cbn [segments sfile setSfile lpath]. repeat split.
    right. exists perm, content. split; reflexivity.
  - change (hasFlag (Z.lor (Z.lor O_CREATE O_RDWR) O_TRUNC) O_CREATE) with true.
    cbn iota. intros H. injection H as <- <-.
    cbn [segments sfile setSfile lpath]. repeat split.
    left. split; reflexivity.
Qed.

(** C7. When the listing has no segment file and [loadSegments] succeeds,
    the log holds exactly one segment, with starting index [1], the name of
    index [1] and an empty cache; its file did not exist and has been
    created empty under the configured file permissions, and the tail handle
    is open on it with the flags create, read-write and truncate. In
    particular the segment list is not empty. *)
Theorem loadSegments_creates_initial l fs files l' fs' :
  segments l = [] ->
  ReadDir fs (lpath l) = Ok files ->
  List.filter isSegmentFile files = [] ->
  loadSegments l fs = (Ok tt, l', fs') ->
  let name := Join (lpath l) (segmentName 1) in
  segments l' = [mkSegment name 1 [] []] /\
  segments l' <> [] /\
  sfile l' = Some (mkFile name (Z.lor (Z.lor O_CREATE O_RDWR) O_TRUNC)
                     (FilePerms (config l)) 0) /\
  fs !! name = None /\
  fs' = <[name := RegularFile (FilePerms (config l)) []]> fs.
Proof.
  intros Hsegs Hdir Hnone Hrun.
  rewrite (loadSegments_none _ _ _ Hsegs Hdir Hnone) in Hrun.
  destruct (createInitialSegment l fs) as [[r l2] fs2] eqn:Hinit.
  destruct r as [[] | e | |]; try discriminate Hrun.
  injection Hrun as <- <-.
  apply createInitialSegment_Ok in Hinit as (Hs & Hf & Hfs).
  change (segmentName 1) with "00000000000000000001"%string. cbn zeta.
  rewrite Hsegs in Hs. cbn [app] in Hs.
  split; [exact Hs |]. split; [rewrite Hs; discriminate |]. split; [exact Hf |].
  destruct Hfs as [Hnew | (perm & content & Hold & _)]; [exact Hnew |].
  exfalso.
  pose proof (ReadDir_lists fs (lpath l) files "00000000000000000001"
                (RegularFile perm content) Hdir Hold eq_refl ltac:(discriminate)) as Hin.
  assert (Hmem : mkDirEntry "00000000000000000001" false
                 ∈ List.filter isSegmentFile files).
  { apply list_elem_of_In, List.filter_In. split; [now apply list_elem_of_In |].
    vm_compute. reflexivity. }
  rewrite Hnone in Hmem. inversion Hmem.
Qed.

Lemma loadSegments_creates_initial_witness :
  let l' := (loadSegments sampleLog freshDir).1.2 in
  let fs' := (loadSegments sampleLog freshDir).2 in
  let name := Join "/wal" (segmentName 1) in
  segments l' = [mkSegment name 1 [] []] /\
  segments l' <> [] /\
  sfile l' = Some (mkFile name (Z.lor (Z.lor O_CREATE O_RDWR) O_TRUNC)
                     (FilePerms DefaultConfig) 0) /\
  freshDir !! name = None /\
  fs' = <[name := RegularFile (FilePerms DefaultConfig) []]> freshDir.
Proof.
  apply (loadSegments_creates_initial sampleLog freshDir
           [mkDirEntry "notes.txt" false]);
    [reflexivity | vm_compute; reflexivity | reflexivity | vm_compute; reflexivity].
Defined.

(** C6. After a successful [loadSegments] on a log that had no segments
    yet, the segment list is not empty and its starting indices ascend
    strictly. *)
Theorem loadSegments_sorted l fs l' fs' :
  segments l = [] ->
  loadSegments l fs = (Ok tt, l', fs') ->
  segments l' <> [] /\
  StronglySorted Z.lt (index <$> segments l').
Proof.
  intros Hsegs Hrun.
  destruct (loadSegments_ReadDir _ _ _ _ Hrun) as [files Hdir].
  destruct (last (List.filter isSegmentFile files)) as [f |] eqn:Hlast.
  - destruct (loadSegments_some _ _ _ _ Hsegs Hdir Hlast)
      as (perm & data & Hfile & Heq).
    rewrite Heq in Hrun. cbn zeta in Hrun.
    destruct (buildCache data) as [table | e | |]; try discriminate Hrun.
    injection Hrun as <- _. cbn [segments setSegments].
    set (segs := segmentOf (lpath l) <$> List.filter isSegmentFile files).
    assert (Hl : last segs = Some (segmentOf (lpath l) f)).
    { unfold segs. now rewrite fmap_last, Hlast. }
    split.
    + intros Hnil. apply (f_equal length) in Hnil. rewrite length_insert in Hnil.
      destruct segs; [discriminate Hl | discriminate Hnil].
    + rewrite list_fmap_insert. cbn [index].
      rewrite list_insert_id.
      * apply registered_indices_sorted. eapply ReadDir_sorted. exact Hdir.
      * rewrite list_lookup_fmap, <- last_lookup, Hl. reflexivity.
  - apply last_None in Hlast.
    rewrite (loadSegments_none _ _ _ Hsegs Hdir Hlast) in Hrun.
    destruct (createInitialSegment l fs) as [[r l2] fs2] eqn:Hinit.
    destruct r as [[] | e | |]; try discriminate Hrun.
    injection Hrun as <- <-.
    apply createInitialSegment_Ok in Hinit as (Hs & _ & _).
    rewrite Hs, Hsegs. cbn. split; [discriminate |].
    repeat constructor.
Qed.

Lemma loadSegments_sorted_witness :
  segments (loadSegments sampleLog sampleDir).1.2 <> [] /\
  StronglySorted Z.lt (index <$> segments (loadSegments sampleLog sampleDir).1.2).
Proof.
  apply (loadSegments_sorted sampleLog sampleDir _ (loadSegments sampleLog sampleDir).2);
    [reflexivity | vm_compute; reflexivity].
Defined.

Lemma loadSegmentEntries_corrupt l fs i :
  corrupt (loadSegmentEntries l fs i).2 = corrupt l.
Proof.
  unfold loadSegmentEntries.
  destruct (segments l !! i) as [seg |]; [| reflexivity].
  destruct (ReadFile fs (path seg)) as [data | e | |]; try reflexivity.
  destruct (buildCache data); reflexivity.
Qed.

Lemma openLastSegment_corrupt l fs i :
  corrupt (openLastSegment l fs i).1.2 = corrupt l.
Proof.
  unfold openLastSegment.
  destruct (segments l !! i) as [seg |]; [| reflexivity].
  destruct (OpenFile fs (path seg) O_WRONLY (FilePerms (config l))) as [[file | e | |] fs1];
    try reflexivity.
  destruct (Seek fs1 file 0 2) as [[off | e | |] file']; try reflexivity.
  pose proof (loadSegmentEntries_corrupt (setSfile (setSfile l file) file') fs1 i) as H.
  destruct (loadSegmentEntries (setSfile (setSfile l file) file') fs1 i)
    as [[[] | e | |] l3]; exact H.
Qed.

Lemma createInitialSegment_corrupt l fs :
  corrupt (createInitialSegment l fs).1.2 = corrupt l.
Proof.
  unfold createInitialSegment.
  destruct (OpenFile fs _ _ _) as [[file | e | |] fs1]; reflexivity.
Qed.

(** No path through [loadSegments] writes the [corrupt] flag. *)
Lemma loadSegments_corrupt l fs :
  corrupt (loadSegments l fs).1.2 = corrupt l.
Proof.
  unfold loadSegments.
  destruct (ReadDir fs (lpath l)) as [files | e | |]; try reflexivity.
  set (l1 := setSegments l _).
  destruct (len (segments l1) =? 0).
  - pose proof (createInitialSegment_corrupt l1 fs) as H.
    destruct (createInitialSegment l1 fs) as [[[[] | e | |] l2] fs2]; exact H.
  - pose proof (openLastSegment_corrupt l1 fs (Z.to_nat (len (segments l1) - 1))) as H.
    destruct (openLastSegment l1 fs _) as [[[[] | e | |] l2] fs2]; exact H.
Qed.

(** C3, as the code has it. When the scan of the contents of the tail
    segment's file fails, [loadSegments] fails with an error that wraps
    [ErrCorrupt]; the [corrupt] flag of the log is left as it was. *)
Theorem loadSegments_corrupt_tail l fs files f perm data e :
  segments l = [] ->
  ReadDir fs (lpath l) = Ok files ->
  last (List.filter isSegmentFile files) = Some f ->
  fs !! Join (lpath l) (Name f) = Some (RegularFile perm data) ->
  buildCache data = Err e ->
  (exists e', (loadSegments l fs).1.1 = Err e' /\ errors_Is e' ErrCorrupt = true) /\
  corrupt (loadSegments l fs).1.2 = corrupt l.
Proof.
  intros Hsegs Hdir Hlast Hfile Hscan.
  split; [| apply loadSegments_corrupt].
  destruct (loadSegments_some _ _ _ _ Hsegs Hdir Hlast)
    as (perm' & data' & Hfile' & Heq).
  rewrite Hfile in Hfile'. injection Hfile' as <- <-.
  rewrite Heq. cbn zeta. rewrite Hscan. cbn [fst].
  eexists. split; [reflexivity |].
  apply buildCache_Err in Hscan. subst e. reflexivity.
Qed.

Lemma loadSegments_corrupt_tail_witness :
  (exists e', (loadSegments sampleLog tornDir).1.1 = Err e' /\
              errors_Is e' ErrCorrupt = true) /\
  corrupt (loadSegments sampleLog tornDir).1.2 = corrupt sampleLog.
Proof.
  apply (loadSegments_corrupt_tail sampleLog tornDir
           [mkDirEntry "00000000000000000001" false]
           (mkDirEntry "00000000000000000001" false) 416 [x05; x41] scanError);
    [reflexivity | vm_compute; reflexivity | reflexivity | reflexivity | reflexivity].
Defined.

(** C3, as stated, fails on the flag: opening a directory whose tail
    segment is cut short fails with an error that wraps [ErrCorrupt], and
    the log's [corrupt] flag is still unset. *)
Lemma corrupt_flag_not_set :
  exists e,
    (loadSegments sampleLog tornDir).1.1 = Err e /\
    errors_Is e ErrCorrupt = true /\
    corrupt (loadSegments sampleLog tornDir).1.2 = false.
Proof. eexists. split; [vm_compute; reflexivity |]. split; reflexivity. Qed.

Lemma last_is_greatest (xs : list Z) x :
  StronglySorted Z.lt xs -> last xs = Some x -> forall y, y ∈ xs -> y <= x.
Proof.
  intros Hs Hl y Hy. apply last_Some in Hl as [xs' ->].
  apply elem_of_app in Hy as [Hy | Hy].
  - pose proof (StronglySorted_app_1_elem_of _ _ _ y x Hs Hy
                  ltac:(apply list_elem_of_singleton; reflexivity)). lia.
  - apply list_elem_of_singleton in Hy. lia.
Qed.

(** C4, as the code has it. When the listing has a segment file, the last
    of them, which has the greatest starting index, becomes the tail: its
    file is a regular file that [loadSegments] opens write-only and leaves
    untouched, the handle is moved to the end of the file, and the scan runs
    on the file's full contents; when the scan succeeds, so does
    [loadSegments], and the last segment of the log holds the contents and
    the table of the scan. *)
Theorem loadSegments_opens_last l fs files f :
  segments l = [] ->
  ReadDir fs (lpath l) = Ok files ->
  last (List.filter isSegmentFile files) = Some f ->
  let name := Join (lpath l) (Name f) in
  (forall g, g ∈ files -> isSegmentFile g = true ->
             decimalValue (Name g) <= decimalValue (Name f)) /\
  exists perm data,
    fs !! name = Some (RegularFile perm data) /\
    (loadSegments l fs).2 = fs /\
    sfile (loadSegments l fs).1.2
      = Some (mkFile name O_WRONLY (FilePerms (config l)) (len data)) /\
    match buildCache data with
    | Ok table =>
        (loadSegments l fs).1.1 = Ok tt /\
        last (segments (loadSegments l fs).1.2)
          = Some (mkSegment name (decimalValue (Name f)) data table)
    | Err e =>
        (loadSegments l fs).1.1
          = Err (Errorf "failed to open last log segment"
                   (Errorf "failed to load last log segment entries" e))
    | _ => True
    end.
Proof.
  intros Hsegs Hdir Hlast. cbn zeta. split.
  - intros g Hg Hgs.
    pose proof (registered_indices_sorted (lpath l) files (ReadDir_sorted _ _ _ Hdir)) as Hs.
    apply (last_is_greatest _ _ Hs).
    + rewrite !fmap_last, Hlast. reflexivity.
    + apply list_elem_of_fmap. exists (segmentOf (lpath l) g). split; [reflexivity |].
      apply list_elem_of_fmap_2. apply list_elem_of_In, List.filter_In.
      split; [now apply list_elem_of_In | exact Hgs].
  - destruct (loadSegments_some _ _ _ _ Hsegs Hdir Hlast)
      as (perm & data & Hfile & Heq).
    exists perm, data. split; [exact Hfile |].
    rewrite Heq. cbn zeta.
    destruct (buildCache data) as [table | e | |]; cbn [fst snd sfile setSfile setSegments segments].
    + repeat split. rewrite last_lookup, length_insert.
      apply list_lookup_insert_eq.
      assert (Hl : last (segmentOf (lpath l) <$> List.filter isSegmentFile files)
                   = Some (segmentOf (lpath l) f)) by now rewrite fmap_last, Hlast.
      rewrite last_lookup in Hl. apply lookup_lt_Some in Hl. exact Hl.
    + repeat split.
    + repeat split.
    + repeat split.
Qed.

Lemma loadSegments_opens_last_witness :
  let name := Join "/wal" "00000000000000000003" in
  (forall g, g ∈ [mkDirEntry "00000000000000000001" false;
                  mkDirEntry "00000000000000000003" false;
                  mkDirEntry "notes.txt" false; mkDirEntry "tmp" true] ->
             isSegmentFile g = true ->
             decimalValue (Name g) <= decimalValue "00000000000000000003") /\
  exists perm data,
    sampleDir !! name = Some (RegularFile perm data) /\
    (loadSegments sampleLog sampleDir).2 = sampleDir /\
    sfile (loadSegments sampleLog sampleDir).1.2
      = Some (mkFile name O_WRONLY (FilePerms DefaultConfig) (len data)) /\
    match buildCache data with
    | Ok table =>
        (loadSegments sampleLog sampleDir).1.1 = Ok tt /\
        last (segments (loadSegments sampleLog sampleDir).1.2)
          = Some (mkSegment name (decimalValue "00000000000000000003") data table)
    | Err e =>
        (loadSegments sampleLog sampleDir).1.1
          = Err (Errorf "failed to open last log segment"
                   (Errorf "failed to load last log segment entries" e))
    | _ => True
    end.
Proof.
  apply (loadSegments_opens_last sampleLog sampleDir
           [mkDirEntry "00000000000000000001" false;
            mkDirEntry "00000000000000000003" false;
            mkDirEntry "notes.txt" false; mkDirEntry "tmp" true]
           (mkDirEntry "00000000000000000003" false));
    [reflexivity | vm_compute; reflexivity | reflexivity].
Defined.

(** C4, as stated, fails on the mode of the handle: on a directory with two
    segment files [loadSegments] succeeds and the tail handle it leaves is
    open write-only, not read-write. *)
Lemma tail_handle_not_read_write :
  (loadSegments sampleLog sampleDir).1.1 = Ok tt /\
  exists h,
    sfile (loadSegments sampleLog sampleDir).1.2 = Some h /\
    fname h = "/wal/00000000000000000003"%string /\
    accessMode (fflag h) = O_WRONLY /\
    accessMode (fflag h) <> O_RDWR.
Proof.
  split; [vm_compute; reflexivity |].
  eexists. split; [vm_compute; reflexivity |].
  repeat split. discriminate.
Qed.

(** * Further properties of the decoder and the scan *)

Lemma loadNextBinaryEntry_record v n payload rest :
  isVarint v n -> len payload = n ->
  len (v ++ payload ++ rest) <= MaxInt ->
  loadNextBinaryEntry (v ++ payload ++ rest) = Ok (len v + n).
Proof.
  intros Hvar Hp Hlen.
  rewrite (loadNextBinaryEntry_eq _ n (len v) Hlen (Uvarint_complete _ _ _ Hvar)).
  pose proof (isVarint_range _ _ Hvar) as [Hv Hn].
  rewrite !len_app. pose proof (len_nonneg rest).
  destruct (Z.leb_spec (len v) 0); [lia |].
  destruct (Z.ltb_spec (len v + (len payload + len rest) - len v) n); [lia | reflexivity].
Qed.

Lemma framedAt_wellFramed data cur ps : framedAt data cur ps -> wellFramed data.
Proof. induction 1; econstructor; eassumption. Qed.

Lemma wellFramed_framedAt data :
  wellFramed data -> forall cur, exists ps, framedAt data cur ps.
Proof.
  induction 1 as [| v n payload rest Hvar Hp Hrest IH]; intros cur.
  - exists []. constructor.
  - destruct (IH (cur + (len v + n))) as [ps Hps].
    eexists. econstructor; eassumption.
Qed.

Lemma framedAt_tiles data cur ps :
  framedAt data cur ps -> tiles ps cur (cur + len data).
Proof.
  induction 1 as [cur | v n payload rest cur ps Hvar Hp Hrest IH].
  - cbn. change (len (@nil byte)) with 0. lia.
  - cbn [tiles start end_]. pose proof (isVarint_range _ _ Hvar) as [Hv Hn].
    repeat split; try lia.
    rewrite !len_app. replace (cur + (len v + (len payload + len rest)))
      with (cur + (len v + n) + len rest) by lia. exact IH.
Qed.

Lemma framedAt_shift data cur ps delta :
  framedAt data cur ps -> framedAt data (cur + delta) (shiftPos delta <$> ps).
Proof.
  induction 1 as [cur | v n payload rest cur ps Hvar Hp Hrest IH].
  - constructor.
  - rewrite fmap_cons. unfold shiftPos at 1. cbn [start end_].
    replace (cur + (len v + n) + delta) with (cur + delta + (len v + n)) by lia.
    econstructor; try eassumption.
    replace (cur + delta + (len v + n)) with (cur + (len v + n) + delta) by lia.
    exact IH.
Qed.

Lemma framedAt_app a cur ta b tb :
  framedAt a cur ta -> framedAt b (cur + len a) tb ->
  framedAt (a ++ b) cur (ta ++ tb).
Proof.
  induction 1 as [cur | v n payload rest cur ps Hvar Hp Hrest IH]; intros Hb.
  - change (len (@nil byte)) with 0 in Hb. rewrite Z.add_0_r in Hb. exact Hb.
  - rewrite <- !app_assoc. cbn [app]. econstructor; try eassumption.
    apply IH. rewrite !len_app in Hb.
    replace (cur + (len v + n) + len rest)
      with (cur + (len v + (len payload + len rest))) by lia. exact Hb.
Qed.

Lemma wellFramed_app a b : wellFramed a -> wellFramed b -> wellFramed (a ++ b).
Proof.
  induction 1 as [| v n payload rest Hvar Hp Hrest IH]; intros Hb; [exact Hb |].
  rewrite <- !app_assoc. econstructor; try eassumption. now apply IH.
Qed.

Lemma wellFramed_app_inv a b : wellFramed a -> wellFramed (a ++ b) -> wellFramed b.
Proof.
  induction 1 as [| v n payload rest Hvar Hp Hrest IH]; intros Hab; [exact Hab |].
  apply IH. rewrite <- !app_assoc in Hab.
  eapply wellFramed_front; eassumption.
Qed.

(** The loop records the table of the records it reads. *)
Lemma scanEntries_framedAt fuel : forall data pos cur table,
  (length data <= fuel)%nat ->
  0 <= cur ->
  cur + len data <= MaxInt ->
  scanEntries fuel data pos cur = Ok table ->
  exists ps, table = pos ++ ps /\ framedAt data cur ps.
Proof.
  induction fuel as [| fuel IH]; intros data pos cur table Hfuel Hcur Hmax Hrun.
  - destruct data as [| b d]; [| simpl in Hfuel; lia].
    simpl in Hrun. injection Hrun as <-. exists []. rewrite app_nil_r.
    split; [reflexivity | constructor].
  - destruct data as [| b d].
    { simpl in Hrun. injection Hrun as <-. exists []. rewrite app_nil_r.
      split; [reflexivity | constructor]. }
    cbn [scanEntries] in Hrun. remember (b :: d) as data eqn:Hdata.
    assert (Hlen : len data <= MaxInt) by lia.
    pose proof (loadNextBinaryEntry_framed data Hlen) as Hnext.
    destruct (loadNextBinaryEntry data) as [k | e | |]; try discriminate Hrun.
    destruct Hnext as (v & n & payload & rest & Heq & Hvar & Hp & Hk).
    pose proof (isVarint_range _ _ Hvar) as [Hv Hn].
    pose proof (len_nonneg payload) as Hpl. pose proof (len_nonneg rest) as Hrl.
    assert (Hdl : len data = len v + len payload + len rest).
    { rewrite Heq, !len_app. lia. }
    unfold slice_from in Hrun.
    assert (Hin : (0 <=? k) && (k <=? len data) = true).
    { apply andb_true_iff. split; apply Z.leb_le; lia. }
    rewrite Hin in Hrun.
    assert (Hrest : drop (Z.to_nat k) data = rest).
    { rewrite Hk, <- Hp, Heq. apply drop_record. }
    rewrite Hrest in Hrun.
    unfold MaxInt in *. rewrite int_small in Hrun by lia.
    assert (Hf : (length rest <= fuel)%nat).
    { unfold len in *. rewrite Heq in Hfuel. rewrite !length_app in Hfuel. lia. }
    destruct (IH rest (pos ++ [mkBytepos cur (cur + k)]) (cur + k) table
                Hf ltac:(lia) ltac:(lia) Hrun) as (ps & -> & Hps).
    exists (mkBytepos cur (cur + k) :: ps). rewrite <- app_assoc.
    split; [reflexivity |]. rewrite Heq, Hk. econstructor; try eassumption.
    rewrite <- Hk. exact Hps.
Qed.

(** Conversely the loop, given fuel for every byte, returns the table of a
    framed buffer. *)
Lemma framedAt_scanEntries data cur ps :
  framedAt data cur ps ->
  forall fuel pos,
    (length data <= fuel)%nat ->
    0 <= cur ->
    cur + len data <= MaxInt ->
    scanEntries fuel data pos cur = Ok (pos ++ ps).
Proof.
  induction 1 as [cur | v n payload rest cur ps Hvar Hp Hrest IH];
    intros fuel pos Hfuel Hcur Hmax.
  - destruct fuel; simpl; now rewrite app_nil_r.
  - pose proof (isVarint_range _ _ Hvar) as [Hv Hn].
    pose proof (len_nonneg payload) as Hpl. pose proof (len_nonneg rest) as Hrl.
    assert (Hdl : len (v ++ payload ++ rest) = len v + len payload + len rest).
    { rewrite !len_app. lia. }
    remember (v ++ payload ++ rest) as data eqn:Hdata.
    destruct data as [| b d].
    { change (len (@nil byte)) with 0 in Hdl. lia. }
    destruct fuel as [| fuel]; [simpl in Hfuel; lia |].
    cbn [scanEntries]. rewrite Hdata.
    rewrite (loadNextBinaryEntry_record v n payload rest Hvar Hp)
      by (rewrite <- Hdata; unfold MaxInt in *; lia).
    unfold slice_from.
    assert (Hin : (0 <=? len v + n) && (len v + n <=? len (v ++ payload ++ rest)) = true).
    { rewrite <- Hdata. apply andb_true_iff. split; apply Z.leb_le; lia. }
    rewrite Hin.
    assert (Hdrop : drop (Z.to_nat (len v + n)) (v ++ payload ++ rest) = rest).
    { rewrite <- Hp. apply drop_record. }
    rewrite Hdrop. unfold MaxInt in *. rewrite int_small by lia.
    rewrite IH; [now rewrite <- app_assoc | | lia | lia].
    assert (Hl : length (b :: d) = length (v ++ payload ++ rest)) by now rewrite Hdata.
    rewrite Hl in Hfuel. rewrite !length_app in Hfuel. unfold len in Hv. lia.
Qed.

Lemma uvarint_loop_unfinished buf : forall i x s,
  0 <= i <= 10 ->
  Forall (fun b => 128 <= byteZ b) (take (Z.to_nat (10 - i)) buf) ->
  (uvarint_loop buf i x s).2 <= 0.
Proof.
  induction buf as [| b buf IH]; intros i x s Hi Hall; cbn [uvarint_loop].
  - cbn. lia.
  - destruct (Z.eqb_spec i MaxVarintLen64) as [He | Hne]; [cbn; lia |].
    unfold MaxVarintLen64 in Hne.
    replace (Z.to_nat (10 - i)) with (S (Z.to_nat (10 - (i + 1)))) in Hall by lia.
    cbn [take] in Hall. apply Forall_cons in Hall as [Hb Hall].
    destruct (Z.ltb_spec (byteZ b) 128) as [Hlt | _]; [lia |].
    apply IH; [lia | exact Hall].
Qed.

(** X1. An entry that decodes lies within the buffer and is at least one
    byte long: the slice expression that follows never panics and leaves
    a strictly shorter buffer. *)
Theorem loadNextBinaryEntry_within data k :
  len data <= MaxInt ->
  loadNextBinaryEntry data = Ok k ->
  1 <= k <= len data /\
  slice_from data k = Some (drop (Z.to_nat k) data) /\
  (length (drop (Z.to_nat k) data) < length data)%nat.
Proof.
  intros Hlen Hrun.
  pose proof (loadNextBinaryEntry_framed data Hlen) as H. rewrite Hrun in H.
  destruct H as (v & n & payload & rest & Heq & Hvar & Hp & Hk).
  pose proof (isVarint_range _ _ Hvar) as [Hv Hn].
  assert (Hdl : len data = len v + len payload + len rest).
  { rewrite Heq, !len_app. lia. }
  pose proof (len_nonneg rest) as Hr.
  assert (Hk1 : 1 <= k <= len data) by lia.
  split; [exact Hk1 |]. split.
  - unfold slice_from.
    destruct (Z.leb_spec 0 k); [| lia]. destruct (Z.leb_spec k (len data)); [| lia].
    reflexivity.
  - rewrite length_drop. unfold len in Hk1. lia.
Qed.

Lemma loadNextBinaryEntry_within_witness :
  1 <= 3 <= len [x02; x0a; x0b; x00] /\
  slice_from [x02; x0a; x0b; x00] 3 = Some (drop (Z.to_nat 3) [x02; x0a; x0b; x00]) /\
  (length (drop (Z.to_nat 3) [x02; x0a; x0b; x00]) < length [x02; x0a; x0b; x00])%nat.
Proof.
  apply (loadNextBinaryEntry_within [x02; x0a; x0b; x00] 3);
    [vm_compute; discriminate | reflexivity].
Defined.

(** X2. What follows an entry does not change how it decodes: an entry
    read from a buffer is read the same, with the same length, from any
    extension of the buffer. *)
Theorem loadNextBinaryEntry_extend data more k :
  len (data ++ more) <= MaxInt ->
  loadNextBinaryEntry data = Ok k ->
  loadNextBinaryEntry (data ++ more) = Ok k.
Proof.
  intros Hlen Hrun.
  assert (Hl : len data <= MaxInt).
  { rewrite len_app in Hlen. pose proof (len_nonneg more). lia. }
  pose proof (loadNextBinaryEntry_framed data Hl) as H. rewrite Hrun in H.
  destruct H as (v & n & payload & rest & Heq & Hvar & Hp & ->).
  subst data. rewrite <- !app_assoc in *.
  now apply loadNextBinaryEntry_record.
Qed.

Lemma loadNextBinaryEntry_extend_witness :
  loadNextBinaryEntry ([x02; x0a; x0b] ++ [xff; xff]) = Ok 3.
Proof.
  apply (loadNextBinaryEntry_extend [x02; x0a; x0b] [xff; xff] 3);
    [vm_compute; discriminate | reflexivity].
Defined.

(** X3. A record cut short is reported: when an entry of [k] bytes decodes
    from a buffer, every proper prefix of those [k] bytes, taken as a
    buffer of its own, fails with [ErrCorrupt]. *)
Theorem loadNextBinaryEntry_torn data k j :
  len data <= MaxInt ->
  loadNextBinaryEntry data = Ok k ->
  0 <= j < k ->
  loadNextBinaryEntry (take (Z.to_nat j) data) = Err ErrCorrupt.
Proof.
  intros Hlen Hrun Hj.
  pose proof (loadNextBinaryEntry_framed data Hlen) as H. rewrite Hrun in H.
  destruct H as (v & n & payload & rest & Heq & Hvar & Hp & Hk).
  pose proof (isVarint_range _ _ Hvar) as [Hv Hn].
  assert (Hshort : len (take (Z.to_nat j) data) <= MaxInt).
  { unfold len in *. rewrite length_take. lia. }
  destruct (Uvarint (take (Z.to_nat j) data)) as [size c] eqn:Hu.
  rewrite (loadNextBinaryEntry_eq _ _ _ Hshort Hu).
  destruct (Z.lt_ge_cases j (len v)) as [Hjv | Hjv].
  - (* the cut falls inside the size prefix *)
    assert (Hc : c <= 0).
    { change c with (size, c).2. rewrite <- Hu. unfold Uvarint.
      apply uvarint_loop_unfinished; [lia |].
      destruct Hvar as (cs & last & -> & Hcs & _ & Hlen10 & _).
      rewrite len_app, len_cons in *. change (len (@nil byte)) with 0 in *.
      unfold MaxVarintLen64 in Hlen10.
      rewrite Heq, <- !app_assoc.
      rewrite take_take. rewrite take_app_le by (unfold len in *; lia).
      apply Forall_take. exact Hcs. }
    destruct (Z.leb_spec c 0); [reflexivity | lia].
  - (* the cut falls inside the payload *)
    assert (Htake : take (Z.to_nat j) data
                    = v ++ take (Z.to_nat (j - len v)) (payload ++ rest)).
    { rewrite Heq. rewrite take_app_ge by (unfold len in *; lia).
      f_equal. f_equal. unfold len. lia. }
    rewrite Htake in Hu. rewrite (Uvarint_complete _ _ _ Hvar) in Hu.
    injection Hu as <- <-.
    destruct (Z.leb_spec (len v) 0); [reflexivity |].
    rewrite Htake, len_app.
    assert (Hrem : len (take (Z.to_nat (j - len v)) (payload ++ rest)) <= j - len v).
    { unfold len in *. rewrite length_take. lia. }
    destruct (Z.ltb_spec (len v + len (take (Z.to_nat (j - len v)) (payload ++ rest)) - len v) n);
      [reflexivity | lia].
Qed.

Lemma loadNextBinaryEntry_torn_witness :
  loadNextBinaryEntry (take (Z.to_nat 2) [x02; x0a; x0b]) = Err ErrCorrupt.
Proof.
  apply (loadNextBinaryEntry_torn [x02; x0a; x0b] 3 2);
    [vm_compute; discriminate | reflexivity | lia].
Defined.

(** X4. A buffer that ends before its size prefix does, the empty buffer
    among them, and a buffer whose size prefix runs past ten bytes are
    corrupt: when each of the first ten bytes, as far as there are any, has
    its top bit set, decoding fails with [ErrCorrupt]. *)
Theorem loadNextBinaryEntry_unfinished_prefix data :
  Forall (fun b => 128 <= byteZ b) (take 10 data) ->
  loadNextBinaryEntry data = Err ErrCorrupt.
Proof.
  intros Hall. unfold loadNextBinaryEntry.
  pose proof (uvarint_loop_unfinished data 0 0 0 ltac:(lia) Hall) as Hc.
  fold (Uvarint data) in Hc. destruct (Uvarint data) as [size c]. cbn [snd] in Hc.
  destruct (Z.leb_spec c 0); [reflexivity | lia].
Qed.

Lemma loadNextBinaryEntry_unfinished_prefix_witness :
  loadNextBinaryEntry [] = Err ErrCorrupt /\
  loadNextBinaryEntry [x80; xff] = Err ErrCorrupt.
Proof.
  split.
  - apply (loadNextBinaryEntry_unfinished_prefix []). constructor.
  - apply (loadNextBinaryEntry_unfinished_prefix [x80; xff]).
    repeat constructor; vm_compute; discriminate.
Defined.

Lemma buildCache_framedAt data table :
  len data <= MaxInt ->
  buildCache data = Ok table <-> framedAt data 0 table.
Proof.
  intros Hlen. unfold buildCache. split.
  - intros Hrun.
    destruct (scanEntries_framedAt (length data) data [] 0 table
                (le_n _) ltac:(lia) ltac:(lia) Hrun) as (ps & -> & Hps).
    exact Hps.
  - intros Hps.
    apply (framedAt_scanEntries _ _ _ Hps (length data) [] (le_n _)); lia.
Qed.

(** X5. The scan of a buffer that begins with whole records goes through
    them and carries on with the rest: after a buffer [a] that loads with
    table [ta], the buffer [a ++ b] loads exactly when [b] does, its table
    is [ta] followed by the table of [b] moved by the length of [a], and
    its error is the error of [b]. *)
Theorem buildCache_app a b ta :
  len (a ++ b) <= MaxInt ->
  buildCache a = Ok ta ->
  buildCache (a ++ b) =
    match buildCache b with
    | Ok tb => Ok (ta ++ (shiftPos (len a) <$> tb))
    | r => r
    end.
Proof.
  intros Hlen Ha. rewrite len_app in Hlen.
  pose proof (len_nonneg a) as Hla. pose proof (len_nonneg b) as Hlb.
  apply buildCache_framedAt in Ha; [| lia].
  pose proof (buildCache_spec b ltac:(lia)) as Hb.
  destruct (buildCache b) as [tb | e | |] eqn:Hrb; try contradiction.
  - apply buildCache_framedAt; [rewrite len_app; lia |].
    apply buildCache_framedAt in Hrb; [| lia].
    apply framedAt_app; [exact Ha |].
    apply (framedAt_shift b 0 tb (len a)) in Hrb. exact Hrb.
  - destruct Hb as [-> Hnwf].
    pose proof (buildCache_spec (a ++ b) ltac:(rewrite len_app; lia)) as Hab.
    destruct (buildCache (a ++ b)) as [tab | e | |]; try contradiction.
    + destruct Hab as [Hwf _]. exfalso. apply Hnwf.
      eapply wellFramed_app_inv; [| exact Hwf].
      eapply framedAt_wellFramed. exact Ha.
    + destruct Hab as [-> _]. reflexivity.
Qed.

Lemma buildCache_app_witness :
  buildCache ([x02; x0a; x0b] ++ [x01; x07; x00]) =
    match buildCache [x01; x07; x00] with
    | Ok tb => Ok ([mkBytepos 0 3] ++ (shiftPos (len [x02; x0a; x0b]) <$> tb))
    | r => r
    end.
Proof.
  apply (buildCache_app [x02; x0a; x0b] [x01; x07; x00] [mkBytepos 0 3]);
    [vm_compute; discriminate | reflexivity].
Defined.

Lemma framedAt_ranges d cur ps :
  framedAt d cur ps ->
  forall pre,
    len pre = cur ->
    len (pre ++ d) <= MaxInt ->
    forall p, p ∈ ps ->
      cur <= start p /\ start p < end_ p /\ end_ p <= cur + len d /\
      loadNextBinaryEntry (slice (pre ++ d) (start p) (end_ p))
        = Ok (end_ p - start p).
Proof.
  induction 1 as [cur | v n payload rest cur ps Hvar Hp Hrest IH];
    intros pre Hpre Hlen p Hin.
  - inversion Hin.
  - pose proof (isVarint_range _ _ Hvar) as [Hv Hn].
    pose proof (len_nonneg pre) as Hlp. pose proof (len_nonneg rest) as Hlr.
    pose proof (len_nonneg payload) as Hlpl.
    rewrite !len_app in *.
    apply elem_of_cons in Hin as [-> | Hin].
    + cbn [start end_]. repeat split; try lia.
      unfold slice.
      replace (Z.to_nat cur) with (length pre) by (unfold len in Hpre; lia).
      rewrite drop_app_length.
      replace (Z.to_nat (cur + (len v + n) - cur)) with (length (v ++ payload))
        by (rewrite length_app; unfold len in *; lia).
      rewrite app_assoc, take_app_length.
      replace (cur + (len v + n) - cur) with (len v + n) by lia.
      rewrite <- (app_nil_r (v ++ payload)), <- app_assoc.
      apply loadNextBinaryEntry_record; [assumption | assumption |].
      rewrite !len_app. change (len (@nil byte)) with 0. lia.
    + specialize (IH (pre ++ v ++ payload)).
      rewrite <- !app_assoc in IH. rewrite !len_app in IH.
      destruct (IH ltac:(lia) ltac:(lia) p Hin) as (H1 & H2 & H3 & H4).
      repeat split; try lia. exact H4.
Qed.

(** X6. Every range of a loaded position table holds one whole entry: it
    lies within the buffer, and the bytes it delimits decode as one entry
    of exactly the length of the range. *)
Theorem buildCache_ranges_are_entries data table p :
  len data <= MaxInt ->
  buildCache data = Ok table ->
  p ∈ table ->
  0 <= start p /\ start p < end_ p /\ end_ p <= len data /\
  loadNextBinaryEntry (slice data (start p) (end_ p)) = Ok (end_ p - start p).
Proof.
  intros Hlen Hrun Hin.
  apply buildCache_framedAt in Hrun; [| exact Hlen].
  exact (framedAt_ranges _ _ _ Hrun [] eq_refl Hlen p Hin).
Qed.

Lemma buildCache_ranges_are_entries_witness :
  0 <= 3 /\ 3 < 5 /\ 5 <= len [x02; x0a; x0b; x01; x07; x00] /\
  loadNextBinaryEntry (slice [x02; x0a; x0b; x01; x07; x00] 3 5) = Ok (5 - 3).
Proof.
  apply (buildCache_ranges_are_entries [x02; x0a; x0b; x01; x07; x00]
           [mkBytepos 0 3; mkBytepos 3 5; mkBytepos 5 6] (mkBytepos 3 5));
    [vm_compute; discriminate | reflexivity |].
  apply list_elem_of_In. right. left. reflexivity.
Defined.

Lemma tiles_count ps : forall a b, tiles ps a b -> len ps <= b - a.
Proof.
  induction ps as [| r ps IH]; intros a b Ht.
  - cbn in Ht. subst. change (len (@nil bytepos)) with 0. lia.
  - cbn [tiles] in Ht. destruct Ht as (Hs & Hlt & Hrest).
    rewrite len_cons. specialize (IH _ _ Hrest). lia.
Qed.

(** X7. The loop of [loadSegmentEntries] ends within one turn per byte and
    never slices out of range: with any fuel of at least the length of the
    buffer the scan gives the result of [buildCache], which is a table or
    the wrapped [ErrCorrupt], and the table has at most one range per
    byte. *)
Theorem scanEntries_terminates data fuel :
  len data <= MaxInt ->
  (length data <= fuel)%nat ->
  scanEntries fuel data [] 0 = buildCache data /\
  ((exists table, buildCache data = Ok table /\ len table <= len data) \/
   buildCache data = Err scanError).
Proof.
  intros Hlen Hfuel.
  pose proof (buildCache_spec data Hlen) as Hb.
  destruct (buildCache data) as [table | e | |] eqn:Hrun; try contradiction.
  - destruct Hb as [_ Htiles]. split.
    + apply buildCache_framedAt in Hrun; [| exact Hlen].
      apply (framedAt_scanEntries _ _ _ Hrun fuel [] Hfuel); lia.
    + left. exists table. split; [reflexivity |].
      pose proof (tiles_count _ _ _ Htiles). lia.
  - destruct Hb as [-> Hnwf]. split; [| right; reflexivity].
    pose proof (scanEntries_spec fuel data [] 0 Hfuel ltac:(lia) ltac:(lia)) as Hs.
    destruct (scanEntries fuel data [] 0) as [t | e | |]; try contradiction.
    + destruct Hs as [Hwf _]. contradiction.
    + destruct Hs as [-> _]. reflexivity.
Qed.

Lemma scanEntries_terminates_witness :
  scanEntries 100 [x02; x0a; x0b; x00] [] 0 = buildCache [x02; x0a; x0b; x00] /\
  ((exists table, buildCache [x02; x0a; x0b; x00] = Ok table /\
                  len table <= len [x02; x0a; x0b; x00]) \/
   buildCache [x02; x0a; x0b; x00] = Err scanError).
Proof.
  apply (scanEntries_terminates [x02; x0a; x0b; x00] 100);
    [vm_compute; discriminate | vm_compute; lia].
Defined.

(** * Further properties of loading *)

Lemma string_length_app (a b : string) :
  String.length (a +:+ b) = (String.length a + String.length b)%nat.
Proof.
  induction a as [| c a IH]; [reflexivity |].
  change (String c a +:+ b) with (String c (a +:+ b)). cbn [String.length].
  now rewrite IH.
Qed.

Lemma Join_neq_dir dir name : Join dir name <> dir.
Proof.
  unfold Join. intros H. apply (f_equal String.length) in H.
  rewrite !string_length_app in H. cbn [String.length] in H. lia.
Qed.

(** A 20-digit name is the name [segmentName] gives to the number it
    denotes. *)
Lemma segmentName_decimalValue s :
  String.length s = 20%nat -> allDigits s = true ->
  decimalValue s <= MaxUint64 ->
  segmentName (decimalValue s) = s.
Proof.
  intros Hlen Hd Hmax.
  assert (H0 : 0 <= decimalValue s).
  { unfold decimalValue. apply (valueFrom_mono _ 0); [lia | exact Hd]. }
  destruct (segmentName_spec (decimalValue s) ltac:(lia)) as (Hl & Hdd & Hv).
  apply String.compare_eq_iff.
  rewrite compare_digits by congruence. rewrite Hv. apply Z.compare_refl.
Qed.

Lemma OpenFile_WRONLY_fs fs name perm : (OpenFile fs name O_WRONLY perm).2 = fs.
Proof.
  unfold OpenFile. destruct (fs !! name) as [[| p content] |]; reflexivity.
Qed.

Lemma openLastSegment_fs l fs i : (openLastSegment l fs i).2 = fs.
Proof.
  unfold openLastSegment.
  destruct (segments l !! i) as [seg |]; [| reflexivity].
  pose proof (OpenFile_WRONLY_fs fs (path seg) (FilePerms (config l))) as Hfs.
  destruct (OpenFile fs (path seg) O_WRONLY (FilePerms (config l)))
    as [[file | e | |] fs1]; cbn [snd] in Hfs; subst fs1; try reflexivity.
  destruct (Seek fs file 0 2) as [[off | e | |] file']; try reflexivity.
  destruct (loadSegmentEntries (setSfile (setSfile l file) file') fs i)
    as [[[] | e | |] l3]; reflexivity.
Qed.

Lemma ReadDir_elem fs dir files g :
  ReadDir fs dir = Ok files ->
  g ∈ files <-> exists p nd, fs !! p = Some nd /\ entryIn dir (p, nd) = Some g.
Proof.
  unfold ReadDir. intros H.
  destruct (fs !! dir) as [[| perm content] |]; try discriminate.
  injection H as <-. rewrite merge_sort_Permutation, list_elem_of_omap. split.
  - intros ([p nd] & Hin & He). apply elem_of_map_to_list in Hin. eauto.
  - intros (p & nd & Hlook & He). exists (p, nd).
    split; [now apply elem_of_map_to_list | exact He].
Qed.

Lemma ReadDir_Err fs dir e :
  ReadDir fs dir = Err e -> errors_Is e ErrCorrupt = false.
Proof.
  unfold ReadDir.
  destruct (fs !! dir) as [[| perm content] |]; intros H; try discriminate H;
    injection H as <-; reflexivity.
Qed.

Lemma StronglySorted_filter_bool {A} (R : relation A) (f : A -> bool) l :
  StronglySorted R l -> StronglySorted R (List.filter f l).
Proof.
  induction 1 as [| x l Hs IH Hall]; cbn [List.filter]; [constructor |].
  destruct (f x); [| exact IH].
  constructor; [exact IH |].
  apply Forall_forall. intros y Hy.
  apply list_elem_of_In, List.filter_In in Hy as [Hy _].
  rewrite Forall_forall in Hall. apply Hall. now apply list_elem_of_In.
Qed.

Lemma sorted_all_equal files e :
  StronglySorted nameLt files ->
  (forall g, g ∈ files -> g = e) -> e ∈ files -> files = [e].
Proof.
  intros Hs Hall Hin.
  destruct files as [| x files]; [inversion Hin |].
  assert (Hx : x = e) by (apply Hall; left).
  subst x. f_equal.
  destruct files as [| y files]; [reflexivity |].
  assert (Hy : y = e) by (apply Hall; right; left).
  subst y. apply StronglySorted_cons in Hs as [Hfa _].
  apply Forall_cons in Hfa as [Hlt _]. unfold nameLt in Hlt.
  rewrite string_compare_refl in Hlt. discriminate Hlt.
Qed.

(** X8. Loading never alters or removes what is in the file system: it
    leaves the file system as it is, or adds the empty file of segment 1
    where no file was; every path that held a node holds the same node
    afterwards, whatever the outcome. *)
Theorem loadSegments_preserves_files l fs :
  let name := Join (lpath l) (segmentName 1) in
  ((loadSegments l fs).2 = fs \/
   (fs !! name = None /\
    (loadSegments l fs).2 = <[name := RegularFile (FilePerms (config l)) []]> fs)) /\
  (forall p nd, fs !! p = Some nd -> (loadSegments l fs).2 !! p = Some nd).
Proof.
  cbn zeta.
  assert (Hmain :
    (loadSegments l fs).2 = fs \/
    (fs !! Join (lpath l) (segmentName 1) = None /\
     (loadSegments l fs).2
       = <[Join (lpath l) (segmentName 1) := RegularFile (FilePerms (config l)) []]> fs)).
  { unfold loadSegments.
    destruct (ReadDir fs (lpath l)) as [files | e | |] eqn:Hdir; try (left; reflexivity).
    rewrite registerEntries_spec.
    set (l1 := setSegments l _).
    destruct (len (segments l1) =? 0) eqn:Hz.
    - apply len_zero_iff in Hz. unfold l1 in Hz. cbn [segments setSegments] in Hz.
      apply app_eq_nil in Hz as [_ Hnone]. apply fmap_nil_inv in Hnone.
      unfold createInitialSegment. cbn [path config setSegments lpath].
      fold l1. change (lpath l1) with (lpath l). change (config l1) with (config l).
      unfold OpenFile.
      destruct (fs !! Join (lpath l) (segmentName 1)) as [[| perm content] |] eqn:Hlook.
      + left. reflexivity.
      + exfalso.
        pose proof (ReadDir_lists fs (lpath l) files (segmentName 1)
                      (RegularFile perm content) Hdir Hlook eq_refl ltac:(discriminate))
          as Hin.
        assert (Hmem : mkDirEntry (segmentName 1) false
                       ∈ List.filter isSegmentFile files).
        { apply list_elem_of_In, List.filter_In. split; [now apply list_elem_of_In |].
          vm_compute. reflexivity. }
        rewrite Hnone in Hmem. inversion Hmem.
      + right. split; reflexivity.
    - left.
      pose proof (openLastSegment_fs l1 fs (Z.to_nat (len (segments l1) - 1))) as Hfs.
      destruct (openLastSegment l1 fs _) as [[[[] | e | |] l2] fs2]; exact Hfs. }
  split; [exact Hmain |].
  intros p nd Hp. destruct Hmain as [-> | [Hnone ->]]; [exact Hp |].
  rewrite lookup_insert_ne; [exact Hp |]. intros <-. congruence.
Qed.

(** X9. Loading writes only the segment list and the tail handle of the
    log: its path, its configuration and its two flags are as before,
    whatever the outcome. *)
Theorem loadSegments_frame l fs :
  lpath (loadSegments l fs).1.2 = lpath l /\
  config (loadSegments l fs).1.2 = config l /\
  closed (loadSegments l fs).1.2 = closed l /\
  corrupt (loadSegments l fs).1.2 = corrupt l.
Proof.
  assert (Hlse : forall l0 fs0 i,
    let r := (loadSegmentEntries l0 fs0 i).2 in
    lpath r = lpath l0 /\ config r = config l0 /\ closed r = closed l0 /\
    corrupt r = corrupt l0).
  { intros l0 fs0 i. cbn zeta. unfold loadSegmentEntries.
    destruct (segments l0 !! i) as [seg |]; [| repeat split].
    destruct (ReadFile fs0 (path seg)) as [data | e | |]; try (repeat split; fail).
    destruct (buildCache data); repeat split. }
  assert (Hopen : forall l0 fs0 i,
    let r := (openLastSegment l0 fs0 i).1.2 in
    lpath r = lpath l0 /\ config r = config l0 /\ closed r = closed l0 /\
    corrupt r = corrupt l0).
  { intros l0 fs0 i. cbn zeta. unfold openLastSegment.
    destruct (segments l0 !! i) as [seg |]; [| repeat split].
    destruct (OpenFile fs0 (path seg) O_WRONLY (FilePerms (config l0)))
      as [[file | e | |] fs1]; try (repeat split; fail).
    destruct (Seek fs1 file 0 2) as [[off | e | |] file']; try (repeat split; fail).
    pose proof (Hlse (setSfile (setSfile l0 file) file') fs1 i) as H.
    destruct (loadSegmentEntries (setSfile (setSfile l0 file) file') fs1 i)
      as [[[] | e | |] l3]; exact H. }
  assert (Hcreate : forall l0 fs0,
    let r := (createInitialSegment l0 fs0).1.2 in
    lpath r = lpath l0 /\ config r = config l0 /\ closed r = closed l0 /\
    corrupt r = corrupt l0).
  { intros l0 fs0. cbn zeta. unfold createInitialSegment.
    destruct (OpenFile fs0 _ _ _) as [[file | e | |] fs1]; repeat split. }
  unfold loadSegments.
  destruct (ReadDir fs (lpath l)) as [files | e | |]; try (repeat split; fail).
  set (l1 := setSegments l _).
  destruct (len (segments l1) =? 0).
  - pose proof (Hcreate l1 fs) as H.
    destruct (createInitialSegment l1 fs) as [[[[] | e | |] l2] fs2]; exact H.
  - pose proof (Hopen l1 fs (Z.to_nat (len (segments l1) - 1))) as H.
    destruct (openLastSegment l1 fs _) as [[[[] | e | |] l2] fs2]; exact H.
Qed.

Lemma loadSegments_fresh_state l fs files l' fs' :
  segments l = [] ->
  ReadDir fs (lpath l) = Ok files ->
  List.filter isSegmentFile files = [] ->
  loadSegments l fs = (Ok tt, l', fs') ->
  segments l' = [mkSegment (Join (lpath l) (segmentName 1)) 1 [] []] /\
  sfile l' = Some (mkFile (Join (lpath l) (segmentName 1))
                     (Z.lor (Z.lor O_CREATE O_RDWR) O_TRUNC)
                     (FilePerms (config l)) 0) /\
  fs !! Join (lpath l) (segmentName 1) = None /\
  fs' = <[Join (lpath l) (segmentName 1)
            := RegularFile (FilePerms (config l)) []]> fs.
Proof.
  intros Hsegs Hdir Hnone Hrun.
  rewrite (loadSegments_none _ _ _ Hsegs Hdir Hnone) in Hrun.
  destruct (createInitialSegment l fs) as [[r l2] fs2] eqn:Hinit.
  destruct r as [[] | e | |]; try discriminate Hrun.
  injection Hrun as <- <-.
  apply createInitialSegment_Ok in Hinit as (Hs & Hf & Hfs).
  change (segmentName 1) with "00000000000000000001"%string.
  rewrite Hsegs in Hs. cbn [app] in Hs.
  split; [exact Hs |]. split; [exact Hf |].
  destruct Hfs as [Hnew | (perm & content & Hold & _)]; [exact Hnew |].
  exfalso.
  pose proof (ReadDir_lists fs (lpath l) files "00000000000000000001"
                (RegularFile perm content) Hdir Hold eq_refl ltac:(discriminate)) as Hin.
  assert (Hmem : mkDirEntry "00000000000000000001" false
                 ∈ List.filter isSegmentFile files).
  { apply list_elem_of_In, List.filter_In. split; [now apply list_elem_of_In |].
    vm_compute. reflexivity. }
  rewrite Hnone in Hmem. inversion Hmem.
Qed.

(** What a successful load of a log without segments leaves, in its two
    cases. *)
Lemma loadSegments_Ok_cases l fs l' fs' :
  segments l = [] ->
  loadSegments l fs = (Ok tt, l', fs') ->
  (exists files,
      ReadDir fs (lpath l) = Ok files /\
      List.filter isSegmentFile files = [] /\
      fs !! Join (lpath l) (segmentName 1) = None /\
      fs' = <[Join (lpath l) (segmentName 1)
                := RegularFile (FilePerms (config l)) []]> fs /\
      segments l' = [mkSegment (Join (lpath l) (segmentName 1)) 1 [] []] /\
      sfile l' = Some (mkFile (Join (lpath l) (segmentName 1))
                         (Z.lor (Z.lor O_CREATE O_RDWR) O_TRUNC)
                         (FilePerms (config l)) 0)) \/
  (exists files f perm data table,
      ReadDir fs (lpath l) = Ok files /\
      last (List.filter isSegmentFile files) = Some f /\
      fs !! Join (lpath l) (Name f) = Some (RegularFile perm data) /\
      buildCache data = Ok table /\
      fs' = fs /\
      segments l' =
        <[pred (length (List.filter isSegmentFile files)) :=
            mkSegment (Join (lpath l) (Name f)) (decimalValue (Name f)) data table]>
          (segmentOf (lpath l) <$> List.filter isSegmentFile files) /\
      sfile l' = Some (mkFile (Join (lpath l) (Name f)) O_WRONLY
                         (FilePerms (config l)) (len data))).
Proof.
  intros Hsegs Hrun.
  destruct (loadSegments_ReadDir _ _ _ _ Hrun) as [files Hdir].
  destruct (last (List.filter isSegmentFile files)) as [f |] eqn:Hlast.
  - right.
    destruct (loadSegments_some _ _ _ _ Hsegs Hdir Hlast)
      as (perm & data & Hfile & Heq).
    rewrite Heq in Hrun. cbn zeta in Hrun.
    destruct (buildCache data) as [table | e | |] eqn:Hscan; try discriminate Hrun.
    injection Hrun as <- <-.
    exists files, f, perm, data, table.
    rewrite length_fmap. repeat split; assumption.
  - left. apply last_None in Hlast.
    destruct (loadSegments_fresh_state l fs files l' fs' Hsegs Hdir Hlast Hrun)
      as (Hs & Hf & Hnone & Hfs).
    exists files. repeat split; assumption.
Qed.

Lemma segmentOf_named dir f :
  isSegmentFile f = true ->
  1 <= index (segmentOf dir f) <= MaxUint64 /\
  path (segmentOf dir f) = Join dir (segmentName (index (segmentOf dir f))) /\
  cbuf (segmentOf dir f) = [] /\ cpos (segmentOf dir f) = [].
Proof.
  intros Hf. apply isSegmentFile_shape in Hf as (_ & Hlen & Hd & Hv).
  cbn [segmentOf index path cbuf cpos].
  rewrite segmentName_decimalValue by (assumption || lia).
  repeat split; lia.
Qed.

Lemma registered_named dir files :
  Forall (fun seg =>
            1 <= index seg <= MaxUint64 /\
            path seg = Join dir (segmentName (index seg)) /\
            cbuf seg = [] /\ cpos seg = [])
    (segmentOf dir <$> List.filter isSegmentFile files).
Proof.
  apply Forall_fmap, Forall_forall. intros f Hf.
  apply list_elem_of_In, List.filter_In in Hf as [_ Hf].
  now apply segmentOf_named.
Qed.

(** X10. After a successful load every segment of the log has a starting
    index between 1 and the largest 64-bit number, and its path is the log
    directory joined with the name [segmentName] gives that index: a file
    is taken for a segment only under the one name its index has. *)
Theorem loadSegments_segment_paths l fs l' fs' seg :
  segments l = [] ->
  loadSegments l fs = (Ok tt, l', fs') ->
  seg ∈ segments l' ->
  1 <= index seg <= MaxUint64 /\
  path seg = Join (lpath l) (segmentName (index seg)).
Proof.
  intros Hsegs Hrun Hin.
  destruct (loadSegments_Ok_cases _ _ _ _ Hsegs Hrun)
    as [(files & _ & _ & _ & _ & Hs & _)
       | (files & f & perm & data & table & _ & Hlast & _ & _ & _ & Hs & _)].
  - rewrite Hs in Hin. apply list_elem_of_singleton in Hin. subst seg.
    cbn [index path]. split; [unfold MaxUint64; lia | reflexivity].
  - rewrite Hs in Hin.
    assert (Hall : Forall (fun seg =>
              1 <= index seg <= MaxUint64 /\
              path seg = Join (lpath l) (segmentName (index seg)))
            (<[pred (length (List.filter isSegmentFile files)) :=
                 mkSegment (Join (lpath l) (Name f)) (decimalValue (Name f)) data table]>
               (segmentOf (lpath l) <$> List.filter isSegmentFile files))).
    { apply Forall_insert.
      - eapply Forall_impl; [apply registered_named |].
        intros s (H1 & H2 & _). split; assumption.
      - apply last_Some_elem_of, list_elem_of_In, List.filter_In in Hlast as [_ Hf].
        destruct (segmentOf_named (lpath l) f Hf) as (H1 & H2 & _).
        cbn [segmentOf index path] in *. split; assumption. }
    rewrite Forall_forall in Hall. now apply Hall.
Qed.

Lemma loadSegments_segment_paths_witness :
  1 <= index (mkSegment "/wal/00000000000000000001" 1 [] []) <= MaxUint64 /\
  path (mkSegment "/wal/00000000000000000001" 1 [] [])
    = Join (lpath sampleLog)
        (segmentName (index (mkSegment "/wal/00000000000000000001" 1 [] []))).
Proof.
  apply (loadSegments_segment_paths sampleLog sampleDir
           (loadSegments sampleLog sampleDir).1.2
           (loadSegments sampleLog sampleDir).2
           (mkSegment "/wal/00000000000000000001" 1 [] []));
    [reflexivity | vm_compute; reflexivity | vm_compute; constructor].
Defined.

(** X11. A successful load fills the cache of the tail segment only: every
    segment before the last has an empty buffer and an empty position
    table. *)
Theorem loadSegments_loads_tail_only l fs l' fs' i seg :
  segments l = [] ->
  loadSegments l fs = (Ok tt, l', fs') ->
  segments l' !! i = Some seg ->
  (S i < length (segments l'))%nat ->
  cbuf seg = [] /\ cpos seg = [].
Proof.
  intros Hsegs Hrun Hi Hnotlast.
  destruct (loadSegments_Ok_cases _ _ _ _ Hsegs Hrun)
    as [(files & _ & _ & _ & _ & Hs & _)
       | (files & f & perm & data & table & _ & Hlast & _ & _ & _ & Hs & _)].
  - rewrite Hs in Hnotlast. cbn [length] in Hnotlast. lia.
  - rewrite Hs in Hi, Hnotlast. rewrite length_insert, length_fmap in Hnotlast.
    rewrite list_lookup_insert_ne in Hi by lia.
    pose proof (registered_named (lpath l) files) as Hall.
    rewrite Forall_forall in Hall.
    destruct (Hall seg) as (_ & _ & H3 & H4); [| split; assumption].
    eapply list_elem_of_lookup_2. exact Hi.
Qed.

Lemma loadSegments_loads_tail_only_witness :
  cbuf (mkSegment "/wal/00000000000000000001" 1 [] []) = [] /\
  cpos (mkSegment "/wal/00000000000000000001" 1 [] []) = [].
Proof.
  apply (loadSegments_loads_tail_only sampleLog sampleDir
           (loadSegments sampleLog sampleDir).1.2
           (loadSegments sampleLog sampleDir).2 0%nat);
    [reflexivity | vm_compute; reflexivity | vm_compute; reflexivity
    | vm_compute; lia].
Defined.

(** X12. After a successful load the tail handle is open on the file of
    the last segment and stands at the end of what the segment caches: its
    offset is the length of the cached buffer, and the last recorded range,
    when there is one, ends there. *)
Theorem loadSegments_tail_offset l fs l' fs' :
  segments l = [] ->
  loadSegments l fs = (Ok tt, l', fs') ->
  exists h tail,
    sfile l' = Some h /\
    last (segments l') = Some tail /\
    fname h = path tail /\
    foffset h = len (cbuf tail) /\
    (len (cbuf tail) <= MaxInt ->
     forall p, last (cpos tail) = Some p -> end_ p = foffset h).
Proof.
  intros Hsegs Hrun.
  destruct (loadSegments_Ok_cases _ _ _ _ Hsegs Hrun)
    as [(files & _ & _ & _ & _ & Hs & Hf)
       | (files & f & perm & data & table & _ & Hlast & _ & Hscan & _ & Hs & Hf)].
  - eexists _, _. split; [exact Hf |]. rewrite Hs. split; [reflexivity |].
    cbn [fname path foffset cbuf cpos]. repeat split.
    intros _ p Hp. discriminate Hp.
  - eexists _, _. split; [exact Hf |]. split.
    + rewrite Hs, last_lookup, length_insert, length_fmap.
      apply list_lookup_insert_eq. rewrite length_fmap.
      destruct (List.filter isSegmentFile files); [discriminate Hlast | simpl; lia].
    + cbn [fname path foffset cbuf cpos]. repeat split.
      intros Hlen p Hp.
      pose proof (buildCache_spec data Hlen) as Hb. rewrite Hscan in Hb.
      destruct Hb as [_ Htiles].
      destruct (tiles_ranges _ _ _ Htiles) as (_ & _ & _ & Hend & _).
      now apply Hend.
Qed.

Lemma loadSegments_tail_offset_witness :
  exists h tail,
    sfile (loadSegments sampleLog sampleDir).1.2 = Some h /\
    last (segments (loadSegments sampleLog sampleDir).1.2) = Some tail /\
    fname h = path tail /\
    foffset h = len (cbuf tail) /\
    (len (cbuf tail) <= MaxInt ->
     forall p, last (cpos tail) = Some p -> end_ p = foffset h).
Proof.
  apply (loadSegments_tail_offset sampleLog sampleDir _
           (loadSegments sampleLog sampleDir).2);
    [reflexivity | vm_compute; reflexivity].
Defined.

Lemma createInitialSegment_Err l fs e l' fs' :
  createInitialSegment l fs = (Err e, l', fs') ->
  errors_Is e ErrCorrupt = false /\
  l' = setSegments l
         (segments l ++ [mkSegment (Join (lpath l) (segmentName 1)) 1 [] []]) /\
  fs' = fs.
Proof.
  unfold createInitialSegment. cbn [path config setSegments]. unfold OpenFile.
  destruct (fs !! Join (lpath l) (segmentName 1)) as [[| perm content] |].
  - change (accessMode (Z.lor (Z.lor O_CREATE O_RDWR) O_TRUNC) =? O_RDONLY) with false.
    cbn iota. intros H. injection H as <- <- <-. repeat split.
  - change (hasFlag (Z.lor (Z.lor O_CREATE O_RDWR) O_TRUNC) O_TRUNC) with true.
    change (accessMode (Z.lor (Z.lor O_CREATE O_RDWR) O_TRUNC) =? O_RDONLY) with false.
    cbn [andb negb]. intros H. discriminate H.
  - change (hasFlag (Z.lor (Z.lor O_CREATE O_RDWR) O_TRUNC) O_CREATE) with true.
    cbn iota. intros H. discriminate H.
Qed.

(** X13. Corruption is reported only where there is some: when the load of
    a log without segments fails with an error that wraps [ErrCorrupt], the
    listing has a segment file, the last of them is a regular file, and the
    scan of its contents fails; on contents a slice can hold, they are not
    made of whole records. *)
Theorem loadSegments_ErrCorrupt_only_if l fs e :
  segments l = [] ->
  (loadSegments l fs).1.1 = Err e ->
  errors_Is e ErrCorrupt = true ->
  exists files f perm data,
    ReadDir fs (lpath l) = Ok files /\
    last (List.filter isSegmentFile files) = Some f /\
    fs !! Join (lpath l) (Name f) = Some (RegularFile perm data) /\
    buildCache data = Err scanError /\
    (len data <= MaxInt -> ~ wellFramed data).
Proof.
  intros Hsegs Hrun Hcorrupt.
  destruct (ReadDir fs (lpath l)) as [files | e0 | |] eqn:Hdir.
  - destruct (last (List.filter isSegmentFile files)) as [f |] eqn:Hlast.
    + destruct (loadSegments_some _ _ _ _ Hsegs Hdir Hlast)
        as (perm & data & Hfile & Heq).
      rewrite Heq in Hrun. cbn zeta in Hrun.
      destruct (buildCache data) as [table | e1 | |] eqn:Hscan;
        cbn [fst] in Hrun; try discriminate Hrun.
      pose proof (buildCache_Err _ _ Hscan) as ->.
      exists files, f, perm, data. repeat split; try assumption.
      intros Hlen. pose proof (buildCache_spec data Hlen) as Hb.
      rewrite Hscan in Hb. tauto.
    + exfalso. apply last_None in Hlast.
      rewrite (loadSegments_none _ _ _ Hsegs Hdir Hlast) in Hrun.
      destruct (createInitialSegment l fs) as [[r l2] fs2] eqn:Hinit.
      destruct r as [[] | e1 | |]; cbn [fst] in Hrun; try discriminate Hrun.
      injection Hrun as <-.
      apply createInitialSegment_Err in Hinit as (Hnot & _).
      cbn [errors_Is] in Hcorrupt.
      rewrite Hnot in Hcorrupt. rewrite orb_false_r in Hcorrupt.
      apply bool_decide_eq_true in Hcorrupt. discriminate Hcorrupt.
  - exfalso. unfold loadSegments in Hrun. rewrite Hdir in Hrun.
    cbn [fst] in Hrun. injection Hrun as <-.
    apply ReadDir_Err in Hdir.
    cbn [errors_Is] in Hcorrupt.
    rewrite Hdir in Hcorrupt. rewrite orb_false_r in Hcorrupt.
    apply bool_decide_eq_true in Hcorrupt. discriminate Hcorrupt.
  - unfold loadSegments in Hrun. rewrite Hdir in Hrun. discriminate Hrun.
  - unfold loadSegments in Hrun. rewrite Hdir in Hrun. discriminate Hrun.
Qed.

Lemma loadSegments_ErrCorrupt_only_if_witness :
  exists files f perm data,
    ReadDir tornDir (lpath sampleLog) = Ok files /\
    last (List.filter isSegmentFile files) = Some f /\
    tornDir !! Join (lpath sampleLog) (Name f) = Some (RegularFile perm data) /\
    buildCache data = Err scanError /\
    (len data <= MaxInt -> ~ wellFramed data).
Proof.
  apply (loadSegments_ErrCorrupt_only_if sampleLog tornDir
           (Errorf "failed to open last log segment"
              (Errorf "failed to load last log segment entries" scanError)));
    [reflexivity | vm_compute; reflexivity | vm_compute; reflexivity].
Defined.

(** X14. When the listing has no segment file and the file of segment 1
    cannot be created, the load fails with an error that does not wrap
    [ErrCorrupt]; the segment of index 1 has been put in the segment list
    all the same, the tail handle is as it was, and the file system is
    untouched. *)
Theorem loadSegments_create_failure l fs files e l' fs' :
  segments l = [] ->
  ReadDir fs (lpath l) = Ok files ->
  List.filter isSegmentFile files = [] ->
  loadSegments l fs = (Err e, l', fs') ->
  errors_Is e ErrCorrupt = false /\
  segments l' = [mkSegment (Join (lpath l) (segmentName 1)) 1 [] []] /\
  sfile l' = sfile l /\
  fs' = fs.
Proof.
  intros Hsegs Hdir Hnone Hrun.
  rewrite (loadSegments_none _ _ _ Hsegs Hdir Hnone) in Hrun.
  destruct (createInitialSegment l fs) as [[r l2] fs2] eqn:Hinit.
  destruct r as [[] | e1 | |]; try discriminate Hrun.
  injection Hrun as <- <- <-.
  apply createInitialSegment_Err in Hinit as (Hnot & -> & ->).
  cbn [errors_Is segments sfile setSegments]. rewrite Hnot, Hsegs.
  repeat split.
Qed.

Lemma loadSegments_create_failure_witness :
  errors_Is
    (Errorf "failed to create initial log segment"
       (Errorf "failed to create initial log segment file"
          (ErrOS "open" "/wal/00000000000000000001"))) ErrCorrupt = false /\
  segments (loadSegments sampleLog blockedDir).1.2
    = [mkSegment (Join (lpath sampleLog) (segmentName 1)) 1 [] []] /\
  sfile (loadSegments sampleLog blockedDir).1.2 = sfile sampleLog /\
  (loadSegments sampleLog blockedDir).2 = blockedDir.
Proof.
  apply (loadSegments_create_failure sampleLog blockedDir
           [mkDirEntry "00000000000000000001" true]);
    [reflexivity | vm_compute; reflexivity | reflexivity | vm_compute; reflexivity].
Defined.

(** The listing of a directory after the first segment file has been
    created in it, when it had no segment file: the one segment file it has
    is the new one. *)
Lemma ReadDir_after_create fs dir files perm :
  ReadDir fs dir = Ok files ->
  List.filter isSegmentFile files = [] ->
  exists files',
    ReadDir (<[Join dir (segmentName 1) := RegularFile perm []]> fs) dir = Ok files' /\
    List.filter isSegmentFile files' = [mkDirEntry (segmentName 1) false].
Proof.
  intros Hdir Hnone.
  set (name := Join dir (segmentName 1)).
  set (fs' := <[name := RegularFile perm []]> fs).
  assert (Hisdir : fs !! dir = Some Directory).
  { unfold ReadDir in Hdir.
    destruct (fs !! dir) as [[| p c] |]; try discriminate Hdir. reflexivity. }
  assert (Hdir' : exists files', ReadDir fs' dir = Ok files').
  { unfold ReadDir, fs'. rewrite lookup_insert_ne by apply Join_neq_dir.
    rewrite Hisdir. eexists. reflexivity. }
  destruct Hdir' as [files' Hdir']. exists files'. split; [exact Hdir' |].
  apply sorted_all_equal.
  - apply StronglySorted_filter_bool. eapply ReadDir_sorted. exact Hdir'.
  - intros g Hg. apply list_elem_of_In, List.filter_In in Hg as [Hg Hgs].
    apply list_elem_of_In in Hg.
    apply (ReadDir_elem _ _ _ g Hdir') in Hg as (p & nd & Hlook & He).
    unfold fs' in Hlook.
    destruct (decide (name = p)) as [<- | Hne].
    + rewrite lookup_insert_eq in Hlook. injection Hlook as <-.
      unfold name in He. rewrite entryIn_Join in He by (reflexivity || discriminate).
      now injection He as <-.
    + rewrite lookup_insert_ne in Hlook by exact Hne.
      exfalso.
      assert (Hin : g ∈ List.filter isSegmentFile files).
      { apply list_elem_of_In, List.filter_In. split; [| exact Hgs].
        apply list_elem_of_In. apply (ReadDir_elem _ _ _ g Hdir). eauto. }
      rewrite Hnone in Hin. inversion Hin.
  - apply list_elem_of_In, List.filter_In. split; [| reflexivity].
    apply list_elem_of_In.
    apply (ReadDir_lists fs' dir files' (segmentName 1) (RegularFile perm []) Hdir');
      [| reflexivity | discriminate].
    unfold fs', name. apply lookup_insert_eq.
Qed.

(** X15. After a successful load the segment list mirrors the directory:
    the listing of the resulting file system has as many segment files as
    the log has segments, at least one, and the scan of that listing
    registers segments with the very paths and starting indices of the
    segments of the log, in the same order, the file of segment 1 included
    when the load has created it. *)
Theorem loadSegments_mirrors_directory l fs l' fs' :
  segments l = [] ->
  loadSegments l fs = (Ok tt, l', fs') ->
  exists files',
    ReadDir fs' (lpath l) = Ok files' /\
    List.filter isSegmentFile files' <> [] /\
    length (List.filter isSegmentFile files') = length (segments l') /\
    (fun s => (path s, index s)) <$> foldl (registerEntry (lpath l)) [] files'
      = (fun s => (path s, index s)) <$> segments l'.
Proof.
  intros Hsegs Hrun.
  destruct (loadSegments_Ok_cases _ _ _ _ Hsegs Hrun)
    as [(files & Hdir & Hnone & Hfree & Hfs & Hs & _)
       | (files & f & perm & data & table & Hdir & Hlast & _ & _ & Hfs & Hs & _)].
  - destruct (ReadDir_after_create fs (lpath l) files (FilePerms (config l)) Hdir Hnone)
      as (files' & Hdir' & Hfilter').
    rewrite <- Hfs in Hdir'.
    exists files'. split; [exact Hdir' |].
    rewrite registerEntries_spec, Hfilter', Hs.
    split; [discriminate |]. split; reflexivity.
  - subst fs'. exists files. split; [exact Hdir |].
    rewrite registerEntries_spec, Hs. cbn [app].
    split. { intros Hnil. rewrite Hnil in Hlast. discriminate Hlast. }
    split. { now rewrite length_insert, length_fmap. }
    rewrite list_fmap_insert. cbn [path index].
    symmetry. apply list_insert_id.
    rewrite <- !list_fmap_compose, list_lookup_fmap.
    rewrite <- last_lookup, Hlast. reflexivity.
Qed.

Lemma loadSegments_mirrors_directory_witness :
  exists files',
    ReadDir (loadSegments sampleLog freshDir).2 (lpath sampleLog) = Ok files' /\
    List.filter isSegmentFile files' <> [] /\
    length (List.filter isSegmentFile files')
      = length (segments (loadSegments sampleLog freshDir).1.2) /\
    (fun s => (path s, index s))
      <$> foldl (registerEntry (lpath sampleLog)) [] files'
      = (fun s => (path s, index s))
          <$> segments (loadSegments sampleLog freshDir).1.2.
Proof.
  apply (loadSegments_mirrors_directory sampleLog freshDir);
    [reflexivity | vm_compute; reflexivity].
Defined.

(** X16. The scan recognises the names [segmentName] makes: a file that is
    not a directory and is named by [segmentName] for an index [u] of 64
    bits is registered with starting index [u], unless [u] is [0], in
    which case it is passed over. *)
Theorem registerEntry_segmentName dir segs u :
  0 <= u <= MaxUint64 ->
  registerEntry dir segs (mkDirEntry (segmentName u) false) =
    if u =? 0 then segs
    else segs ++ [mkSegment (Join dir (segmentName u)) u [] []].
Proof.
  intros Hu. rewrite registerEntry_spec.
  destruct (segmentName_spec u Hu) as (Hlen & Hd & Hv).
  unfold isSegmentFile, segmentOf. cbn [IsDir Name negb andb].
  rewrite Hlen, Hd, Hv. cbn [Nat.eqb andb].
  change ((20 =? 20)%nat) with true. cbn [andb].
  destruct (Z.leb_spec u MaxUint64) as [_ | Hgt]; [| lia].
  rewrite andb_true_r.
  destruct (Z.eqb_spec u 0) as [-> | Hne]; [reflexivity |].
  destruct (Z.ltb_spec 0 u) as [_ | Hle]; [reflexivity | lia].
Qed.

Lemma registerEntry_segmentName_witness :
  registerEntry "/wal" [] (mkDirEntry (segmentName 42) false) =
    if 42 =? 0 then []
    else [] ++ [mkSegment (Join "/wal" (segmentName 42)) 42 [] []].
Proof.
  apply (registerEntry_segmentName "/wal" [] 42). vm_compute. split; discriminate.
Defined.

Lemma Validate_fields c :
  Validate c =
    mkConfig (Sync c)
      (if SegmentSize c <=? 0 then DefaultSegmentSize else SegmentSize c)
      (if DirPerms c =? 0 then DefaultDirPerms else DirPerms c)
      (if FilePerms c =? 0 then DefaultFilePerms else FilePerms c).
Proof.
  destruct c as [sy ss dp fp]. unfold Validate.
  cbn [SegmentSize DirPerms FilePerms Sync].
  destruct (ss <=? 0); cbn [SegmentSize DirPerms FilePerms Sync];
    destruct (dp =? 0); cbn [SegmentSize DirPerms FilePerms Sync];
    destruct (fp =? 0); reflexivity.
Qed.

(** X17. [Validate] always leaves a configuration the log can run with, a
    positive segment size and non-zero permissions; it changes nothing in a
    configuration that is already so, and validating twice is validating
    once. *)
Theorem Validate_valid c :
  0 < SegmentSize (Validate c) /\
  DirPerms (Validate c) <> 0 /\
  FilePerms (Validate c) <> 0 /\
  Validate (Validate c) = Validate c /\
  (Validate c = c <->
   0 < SegmentSize c /\ DirPerms c <> 0 /\ FilePerms c <> 0).
Proof.
  rewrite (Validate_fields (Validate c)), (Validate_fields c).
  destruct c as [sy ss dp fp]. cbn [SegmentSize DirPerms FilePerms Sync].
  unfold DefaultSegmentSize, DefaultDirPerms, DefaultFilePerms.
  destruct (Z.leb_spec ss 0) as [Hss | Hss];
    destruct (Z.eqb_spec dp 0) as [Hdp | Hdp];
    destruct (Z.eqb_spec fp 0) as [Hfp | Hfp];
    cbn [Z.leb Z.eqb Z.compare Z.mul Pos.mul Pos.add];
    repeat match goal with
           | |- context [?x <=? 0] => destruct (Z.leb_spec x 0); [lia |]
           | |- context [?x =? 0] => destruct (Z.eqb_spec x 0); [lia |]
           end;
    (split; [lia |]); (split; [lia |]); (split; [lia |]); (split; [reflexivity |]);
    (split; [intros Heq; try (injection Heq; intros); repeat split; lia
            | intros (? & ? & ?); try lia; reflexivity]).
Qed.

(** X18. Loading never panics and always comes to an end: on a file system
    whose files fit a slice, whatever the log and the directory, the
    outcome of [loadSegments] is success or an error; the index expression
    [l.segments[len(l.segments)-1]] and the slice expressions of the scan
    stay in range. *)
Theorem loadSegments_returns l fs :
  sliceable fs ->
  (loadSegments l fs).1.1 = Ok tt \/ exists e, (loadSegments l fs).1.1 = Err e.
Proof.
  intros Hfs. unfold loadSegments.
  destruct (ReadDir fs (lpath l)) as [files | e | |] eqn:Hdir.
  - set (l1 := setSegments l _).
    destruct (len (segments l1) =? 0) eqn:Hz.
    + unfold createInitialSegment.
      destruct (OpenFile fs _ _ _) as [[file | e | |] fs1] eqn:Hopen;
        cbn [fst]; eauto.
      * unfold OpenFile in Hopen.
        destruct (fs !! _) as [[| p c] |]; repeat case_match; simplify_eq.
      * unfold OpenFile in Hopen.
        destruct (fs !! _) as [[| p c] |]; repeat case_match; simplify_eq.
    + assert (Hlook : is_Some (segments l1 !! Z.to_nat (len (segments l1) - 1))).
      { apply lookup_lt_is_Some. apply Z.eqb_neq in Hz. unfold len in *. lia. }
      destruct Hlook as [seg Hseg].
      unfold openLastSegment. rewrite Hseg.
      destruct (OpenFile fs (path seg) O_WRONLY (FilePerms (config l1)))
        as [[file | e | |] fs1] eqn:Hopen; cbn [fst]; eauto.
      * pose proof (OpenFile_WRONLY_fs fs (path seg) (FilePerms (config l1))) as Hsame.
        rewrite Hopen in Hsame. cbn [snd] in Hsame. subst fs1.
        destruct (Seek fs file 0 2) as [[off | e | |] file'] eqn:Hseek;
          cbn [fst]; eauto.
        -- unfold loadSegmentEntries. cbn [segments setSfile]. rewrite Hseg.
           unfold ReadFile.
           destruct (fs !! path seg) as [[| perm data] |] eqn:Hfile; cbn [fst]; eauto.
           pose proof (Hfs _ _ Hfile) as Hlen. cbn beta iota in Hlen.
           pose proof (buildCache_spec data Hlen) as Hb.
           destruct (buildCache data) as [table | e | |]; cbn [fst];
             try contradiction; eauto.
        -- unfold Seek in Hseek.
           destruct (fs !! fname file) as [[| p c] |]; repeat case_match; simplify_eq.
        -- unfold Seek in Hseek.
           destruct (fs !! fname file) as [[| p c] |]; repeat case_match; simplify_eq.
      * unfold OpenFile in Hopen.
        destruct (fs !! _) as [[| p c] |]; repeat case_match; simplify_eq.
      * unfold OpenFile in Hopen.
        destruct (fs !! _) as [[| p c] |]; repeat case_match; simplify_eq.
  - cbn [fst]. eauto.
  - unfold ReadDir in Hdir. destruct (fs !! lpath l) as [[| p c] |]; discriminate Hdir.
  - unfold ReadDir in Hdir. destruct (fs !! lpath l) as [[| p c] |]; discriminate Hdir.
Qed.

Lemma loadSegments_returns_witness :
  (loadSegments sampleLog sampleDir).1.1 = Ok tt \/
  exists e, (loadSegments sampleLog sampleDir).1.1 = Err e.
Proof.
  apply (loadSegments_returns sampleLog sampleDir).
  unfold sliceable, sampleDir.
  repeat (apply map_Forall_insert_2; [first [exact I | vm_compute; discriminate] |]).
  apply map_Forall_empty.
Defined.
